(** * pug-parser: the token-to-AST parser of src/index.js

    A shallow embedding of [Parser] and of the exported [parse], with the
    JavaScript data it handles: tokens as the lexer emits them, AST nodes as
    plain objects, the token cursor as an array, and the parser methods as
    computations in a state-and-exception monad. *)

From Stdlib Require Import String Ascii List ZArith Bool Arith Lia.
From Stdlib Require Import DecimalString.
Import ListNotations.

Set Warnings "-register-all".

Local Open Scope string_scope.
Local Open Scope list_scope.

(** ** JavaScript data *)

(** The plain data the parser reads and builds.  Numbers are the integers
    (line numbers); an object is its list of own properties in insertion
    order. *)
Inductive value : Type :=
| VUndef
| VNull
| VBool (b : bool)
| VNum (z : Z)
| VStr (s : string)
| VArr (items : list value)
| VObj (props : list (string * value)).

Definition obj : Type := list (string * value).

(** [o.k]: the own property, [undefined] when there is none. *)
Fixpoint get (k : string) (o : obj) : value :=
  match o with
  | [] => VUndef
  | (k', v) :: r => if String.eqb k k' then v else get k r
  end.

(** [k in o] for own properties. *)
Fixpoint has (k : string) (o : obj) : bool :=
  match o with
  | [] => false
  | (k', _) :: r => if String.eqb k k' then true else has k r
  end.

(** [o.k = v]: overwrite in place, or append a new property. *)
Fixpoint set (k : string) (v : value) (o : obj) : obj :=
  match o with
  | [] => [(k, v)]
  | (k', v') :: r =>
      if String.eqb k k' then (k, v) :: r else (k', v') :: set k v r
  end.

(** [delete o.k]. *)
Fixpoint del (k : string) (o : obj) : obj :=
  match o with
  | [] => []
  | (k', v') :: r => if String.eqb k k' then r else (k', v') :: del k r
  end.

(** [v.k] on a value that is not [undefined] or [null]: primitives and
    arrays have no such own property. *)
Definition prop (k : string) (v : value) : value :=
  match v with
  | VObj o => get k o
  | _ => VUndef
  end.

(** ToBoolean. *)
Definition truthy (v : value) : bool :=
  match v with
  | VUndef | VNull => false
  | VBool b => b
  | VNum z => negb (Z.eqb z 0)
  | VStr s => negb (String.eqb s "")
  | VArr _ | VObj _ => true
  end.

Definition string_of_Z (z : Z) : string :=
  NilZero.string_of_int (Z.to_int z).

(** ToString, as string concatenation with [+] applies it. *)
Fixpoint ToString (v : value) : string :=
  match v with
  | VUndef => "undefined"
  | VNull => "null"
  | VBool true => "true"
  | VBool false => "false"
  | VNum z => string_of_Z z
  | VStr s => s
  | VArr l =>
      String.concat ","
        (map (fun x => match x with
                       | VUndef | VNull => ""
                       | _ => ToString x
                       end) l)
  | VObj _ => "[object Object]"
  end.

Definition nl : string := String (ascii_of_nat 10) "".

(** White space as [String.prototype.trim] strips it, among the code units
    below 256: tab, line feed, vertical tab, form feed, carriage return,
    space and no-break space. *)
Definition is_space (c : ascii) : bool :=
  let n := nat_of_ascii c in
  (((9 <=? n) && (n <=? 13)) || (n =? 32) || (n =? 160))%nat.

Fixpoint trim_left (s : string) : string :=
  match s with
  | String c r => if is_space c then trim_left r else s
  | EmptyString => EmptyString
  end.

Fixpoint trim_right (s : string) : string :=
  match s with
  | EmptyString => EmptyString
  | String c r =>
      match trim_right r with
      | EmptyString => if is_space c then EmptyString else String c EmptyString
      | r' => String c r'
      end
  end.

Definition trim (s : string) : string := trim_right (trim_left s).

(** [s.match(/^ *else/)] as a test. *)
Fixpoint match_else (s : string) : bool :=
  match s with
  | String " " r => match_else r
  | _ => prefix "else" s
  end.

(** [JSON.parse(JSON.stringify(v))] on plain data: a property holding
    [undefined] is dropped, [undefined] inside an array becomes [null],
    everything else is copied. *)
Definition clone_items (clone : value -> value) (l : list value)
  : list value :=
  map (fun x => match x with
                | VUndef => VNull
                | _ => clone x
                end) l.

Definition clone_props (clone : value -> value)
  : list (string * value) -> list (string * value) :=
  fix props (o : list (string * value)) : list (string * value) :=
    match o with
    | [] => []
    | (k, VUndef) :: r => props r
    | (k, x) :: r => (k, clone x) :: props r
    end.

Fixpoint json_clone (v : value) : value :=
  match v with
  | VArr l => VArr (clone_items json_clone l)
  | VObj o => VObj (clone_props json_clone o)
  | _ => v
  end.

(** Data that JSON can carry: no [undefined] anywhere below the root. *)
Fixpoint json_data (v : value) : bool :=
  match v with
  | VUndef => false
  | VArr l => forallb json_data l
  | VObj o => forallb (fun kv => json_data (snd kv)) o
  | _ => true
  end.

(** ** Tokens *)

(** An entry of the array an [attrs] token carries. *)
Module Attr.
Record t : Type := mk
  { name : string;
    val : value;
    escaped : value }.

Definition to_value (a : t) : value :=
  VObj [("name", VStr (name a)); ("val", val a); ("escaped", escaped a)].
End Attr.

(** A token of the lexer.  [type] and [val] are strings; the fields the
    parser only copies into nodes are arbitrary data; the four flags stand
    for the truthiness of the lexer's flag, which is all the parser looks at.
    [attrs] is the entry array found under [tok.attrs]: the array itself on
    an [attrs] token, the array of the nested attrs token ([tok.attrs.attrs])
    on a filtered [include] token, and [None] where the field is missing. *)
Module Token.
Record t : Type := mk
  { type : string;
    val : string;
    line : value;
    selfClosing : value;
    mode : value;
    filter : value;
    args : value;
    key : value;
    code : value;
    buffer : value;
    escape : value;
    attrs : option (list Attr.t);
    isIf : bool;
    isElse : bool;
    hasIf : bool;
    requiresBlock : bool }.

(** A token with only [type], [val] and [line] set. *)
Definition simple (ty v : string) (l : Z) : t :=
  mk ty v (VNum l) VUndef VUndef VUndef VUndef VUndef VUndef VUndef VUndef
     None false false false false.

(** [tok.hasIf = true]. *)
Definition mark_hasIf (k : t) : t :=
  mk (type k) (val k) (line k) (selfClosing k) (mode k) (filter k) (args k)
     (key k) (code k) (buffer k) (escape k) (attrs k)
     (isIf k) (isElse k) true (requiresBlock k).

Definition with_attrs (l : list Attr.t) (k : t) : t :=
  mk (type k) (val k) (line k) (selfClosing k) (mode k) (filter k) (args k)
     (key k) (code k) (buffer k) (escape k) (Some l)
     (isIf k) (isElse k) (hasIf k) (requiresBlock k).

Definition with_flags (isif iselse requires : bool) (k : t) : t :=
  mk (type k) (val k) (line k) (selfClosing k) (mode k) (filter k) (args k)
     (key k) (code k) (buffer k) (escape k) (attrs k)
     isif iselse (hasIf k) requires.
End Token.

(** The array under [tok.attrs] as a value. *)
Definition attrs_value (a : option (list Attr.t)) : value :=
  match a with
  | Some l => VArr (map Attr.to_value l)
  | None => VUndef
  end.

(** ** Errors and the parser state *)

Inductive ErrorKind : Type :=
| EndOfStream
| UnexpectedToken
| UnexpectedCaseToken
| DuplicateAttribute
| ElseWithoutIf
| AnonymousBlockOutsideMixin
| TypeError.

(** A thrown [Error]: its kind and its message. *)
Inductive Error : Type :=
| Thrown (kind : ErrorKind) (message : string).

Definition kind_of (e : Error) : ErrorKind :=
  match e with Thrown k _ => k end.

(** [this.tokens]: the cursor of the token-stream package that index.js
    requires.  The package is a dependency, not a file of src/: the cursor
    keeps the token array, [peek] reads its first element, [advance] shifts
    it off, [defer] unshifts a token, [lookahead(i)] reads element [i], and
    reading from an empty array throws.  parseCode calls [lookahead(1)] for
    the token behind a peeked newline, which is element 1 of that array. *)
Record TokenStream : Type := mkTokenStream
  { _tokens : list Token.t;
    lineno : value }.

Record Parser : Type := mkParser
  { tokens : TokenStream;
    filename : value;
    inMixin : bool;
    console : list string }.

Inductive result (A : Type) : Type :=
| Ok (a : A) (p : Parser)
| Throw (e : Error)
| OutOfFuel.

Arguments Ok {A} a p.
Arguments Throw {A} e.
Arguments OutOfFuel {A}.

Definition M (A : Type) : Type := Parser -> result A.

Definition ret {A} (a : A) : M A := fun p => Ok a p.

Definition bind {A B} (m : M A) (f : A -> M B) : M B :=
  fun p =>
    match m p with
    | Ok a p' => f a p'
    | Throw e => Throw e
    | OutOfFuel => OutOfFuel
    end.

Definition throw {A} (k : ErrorKind) (msg : string) : M A :=
  fun _ => Throw (Thrown k msg).

Definition timeout {A} : M A := fun _ => OutOfFuel.

Declare Scope parser_scope.
Delimit Scope parser_scope with parser.
Notation "x <- m ;; k" := (bind m (fun x => k))
  (at level 100, m at next level, right associativity) : parser_scope.
Notation "m ;;; k" := (bind m (fun _ => k))
  (at level 100, right associativity) : parser_scope.
Local Open Scope parser_scope.

(** [while (cond) body], cut off after [n] tests of the condition. *)
Fixpoint while {A} (n : nat) (cond : M bool) (body : A -> M A) (a : A)
  : M A :=
  match n with
  | O => timeout
  | S n' =>
      c <- cond ;;
      if c then a' <- body a ;; while n' cond body a' else ret a
  end.

(** [for (i = 0; i < l.length; i++) body(l[i])]. *)
Fixpoint for_each {A B} (body : B -> A -> M A) (l : list B) (a : A) : M A :=
  match l with
  | [] => ret a
  | x :: r => a' <- body x a ;; for_each body r a'
  end.

Definition dq : string := String (ascii_of_nat 34) "".

Definition empty_block : obj := [("type", VStr "Block"); ("nodes", VArr [])].

Definition type_error {A} : M A :=
  throw TypeError "Cannot read property of undefined".

(** The elements of what must be an array ([v.push], [v.forEach],
    [v.length] throw or yield nothing usable on anything else). *)
Definition elems (v : value) : M (list value) :=
  match v with
  | VArr l => ret l
  | _ => type_error
  end.

Definition as_obj (v : value) : M obj :=
  match v with
  | VObj o => ret o
  | _ => type_error
  end.

(** [o.k.push(x)]. *)
Definition push (k : string) (x : value) (o : obj) : M obj :=
  l <- elems (get k o) ;;
  ret (set k (VArr (l ++ [x])) o).

(** [o.block.nodes.push(x)]. *)
Definition push_block_node (x : value) (o : obj) : M obj :=
  b <- as_obj (get "block" o) ;;
  b' <- push "nodes" x b ;;
  ret (set "block" (VObj b') o).

(** [nodes[i].val += s] on the node that [currentNode] aliases. *)
Fixpoint append_val (i : nat) (s : string) (nodes : list value)
  : list value :=
  match nodes, i with
  | [], _ => []
  | VObj o :: r, O =>
      VObj (set "val" (VStr (ToString (get "val" o) ++ s)) o) :: r
  | x :: r, O => x :: r
  | x :: r, S i' => x :: append_val i' s r
  end.

(** ** The parser *)

Section Parser.

(** [require('./lib/inline-tags')]: the table of inline element names. *)
Variable inlineTags : list string.

(** The cursor's [lineno] property is kept by the token-stream package;
    the parser only reads it.  [lineno0] is its value on a new cursor and
    [lineno_after tok l] its value once [tok] is consumed. *)
Variable lineno0 : value.
Variable lineno_after : Token.t -> value -> value.

(** *** TokenStream *)

Definition end_of_stream {A} : M A :=
  throw EndOfStream "Cannot read past the end of a stream".

Definition TokenStream_peek : M Token.t :=
  fun p =>
    match _tokens (tokens p) with
    | [] => end_of_stream p
    | k :: _ => Ok k p
    end.

Definition TokenStream_advance : M Token.t :=
  fun p =>
    match _tokens (tokens p) with
    | [] => end_of_stream p
    | k :: r =>
        Ok k (mkParser (mkTokenStream r (lineno_after k (lineno (tokens p))))
                       (filename p) (inMixin p) (console p))
    end.

Definition TokenStream_lookahead (index : nat) : M Token.t :=
  fun p =>
    match nth_error (_tokens (tokens p)) index with
    | None => end_of_stream p
    | Some k => Ok k p
    end.

Definition TokenStream_defer (k : Token.t) : M unit :=
  fun p =>
    Ok tt (mkParser (mkTokenStream (k :: _tokens (tokens p))
                                   (lineno (tokens p)))
                    (filename p) (inMixin p) (console p)).

(** *** Parser: cursor methods *)

Definition advance : M Token.t := TokenStream_advance.
Definition peek : M Token.t := TokenStream_peek.
Definition line : M value := fun p => Ok (lineno (tokens p)) p.
Definition lookahead (n : nat) : M Token.t := TokenStream_lookahead n.

Definition this_filename : M value := fun p => Ok (filename p) p.
Definition this_inMixin : M bool := fun p => Ok (inMixin p) p.

Definition set_inMixin (b : bool) : M unit :=
  fun p => Ok tt (mkParser (tokens p) (filename p) b (console p)).

Definition console_warn (msg : string) : M unit :=
  fun p =>
    Ok tt (mkParser (tokens p) (filename p) (inMixin p) (console p ++ [msg])).

(** [this.tokens._tokens[i].hasIf = true], the assignment through
    [this.peek()] ([i = 0]) or [this.lookahead(i)]. *)
Fixpoint mark_at (i : nat) (l : list Token.t) : list Token.t :=
  match l, i with
  | [], _ => []
  | k :: r, O => Token.mark_hasIf k :: r
  | k :: r, S i' => k :: mark_at i' r
  end.

Definition set_hasIf (i : nat) : M unit :=
  fun p =>
    Ok tt (mkParser (mkTokenStream (mark_at i (_tokens (tokens p)))
                                   (lineno (tokens p)))
                    (filename p) (inMixin p) (console p)).

Definition peek_type : M string := k <- peek ;; ret (Token.type k).

Definition peek_is (ty : string) : M bool :=
  k <- peek ;; ret (String.eqb (Token.type k) ty).

Definition expect (ty : string) : M Token.t :=
  k <- peek ;;
  if String.eqb (Token.type k) ty then advance
  else
    k' <- peek ;;
    throw UnexpectedToken
      ("expected " ++ dq ++ ty ++ dq ++ ", but got " ++ dq
         ++ Token.type k' ++ dq).

Definition accept (ty : string) : M (option Token.t) :=
  k <- peek ;;
  if String.eqb (Token.type k) ty then (a <- advance ;; ret (Some a))
  else ret None.

(** *** Parser: the grammar

    The methods call each other through [this.parseExpr()] and
    [this.block()]; here those two calls are the variables [parseExpr] and
    [block], tied into a recursion below, and [n] bounds every [while]. *)

Section Grammar.

Variable n : nat.
Variable parseExpr : M obj.
Variable block : M obj.

Definition text_node (s : string) : obj :=
  [("type", VStr "Text"); ("val", VStr s)].

Definition block_of (nodes : list value) : obj :=
  [("type", VStr "Block"); ("nodes", VArr nodes)].

Definition parseText (options_block : bool) : M obj :=
  tags <- while n
    (k <- peek ;;
     ret (String.eqb (Token.type k) "text"
          || String.eqb (Token.type k) "start-jade-interpolation"
          || (options_block && String.eqb (Token.type k) "newline")))
    (fun tags : list obj =>
       k <- peek ;;
       if String.eqb (Token.type k) "text" then
         t <- advance ;;
         ret (tags ++ [text_node (Token.val t)])
       else if String.eqb (Token.type k) "newline" then
         advance ;;;
         k2 <- peek ;;
         if String.eqb (Token.type k2) "text"
         then ret (tags ++ [text_node nl])
         else ret tags
       else
         expect "start-jade-interpolation" ;;;
         e <- parseExpr ;;
         expect "end-jade-interpolation" ;;;
         ret (tags ++ [e]))
    [] ;;
  match tags with
  | [t] => ret t
  | _ => ret (block_of (map VObj tags))
  end.

(** One [node] of [block.nodes.forEach] in parseTextHtml; [currentNode] is
    the index in [nodes] of the object it aliases. *)
Definition merge_html (st : list value * option nat) (node : value)
  : list value * option nat :=
  let '(nodes, currentNode) := st in
  if truthy (prop "isHtml" node) then
    match currentNode with
    | None => (nodes ++ [node], Some (length nodes))
    | Some i =>
        (append_val i (nl ++ ToString (prop "val" node)) nodes, Some i)
    end
  else (nodes ++ [node], None).

(** One turn of the loop of parseTextHtml; the state is [nodes] and
    [currentNode]. *)
Definition parseTextHtml_step (st : list value * option nat)
  : M (list value * option nat) :=
  let '(nodes, currentNode) := st in
  text <- advance ;;
  fn <- this_filename ;;
  let st :=
    match currentNode with
    | None =>
        (nodes ++ [VObj [("type", VStr "Text");
                         ("val", VStr (Token.val text));
                         ("filename", fn);
                         ("line", Token.line text);
                         ("isHtml", VBool true)]],
         Some (length nodes))
    | Some i => (append_val i (nl ++ Token.val text) nodes, Some i)
    end in
  k <- peek ;;
  if String.eqb (Token.type k) "indent" then
    b <- block ;;
    l <- elems (get "nodes" b) ;;
    ret (fold_left merge_html l st)
  else if String.eqb (Token.type k) "newline" then
    advance ;;; ret st
  else ret st.

Definition parseTextHtml : M (list value) :=
  r <- while n (peek_is "text-html") parseTextHtml_step ([], None) ;;
  ret (fst r).

Definition parseBlockExpansion : M obj :=
  c <- peek_is ":" ;;
  if c then
    advance ;;;
    e <- parseExpr ;;
    ret (block_of [VObj e])
  else block.

Definition parseWhen : M obj :=
  tok <- expect "when" ;;
  nlq <- peek_is "newline" ;;
  if negb nlq then
    b <- parseBlockExpansion ;;
    ret [("type", VStr "When"); ("expr", VStr (Token.val tok));
         ("block", VObj b); ("debug", VBool false)]
  else
    ret [("type", VStr "When"); ("expr", VStr (Token.val tok));
         ("debug", VBool false)].

Definition parseDefault : M obj :=
  expect "default" ;;;
  b <- parseBlockExpansion ;;
  ret [("type", VStr "When"); ("expr", VStr "default");
       ("block", VObj b); ("debug", VBool false)].

Definition parseCase : M obj :=
  tok <- expect "case" ;;
  let node := [("type", VStr "Case"); ("expr", VStr (Token.val tok));
               ("line", Token.line tok)] in
  fn <- this_filename ;;
  expect "indent" ;;;
  nodes <- while n
    (o <- peek_is "outdent" ;; ret (negb o))
    (fun nodes : list value =>
       k <- peek ;;
       if String.eqb (Token.type k) "newline" then
         advance ;;; ret nodes
       else if String.eqb (Token.type k) "when" then
         w <- parseWhen ;; ret (nodes ++ [VObj w])
       else if String.eqb (Token.type k) "default" then
         d <- parseDefault ;; ret (nodes ++ [VObj d])
       else
         throw UnexpectedCaseToken
           ("Unexpected token " ++ dq ++ Token.type k ++ dq
              ++ ", expected " ++ dq ++ "when" ++ dq ++ ", " ++ dq
              ++ "default" ++ dq ++ " or " ++ dq ++ "newline" ++ dq))
    [] ;;
  expect "outdent" ;;;
  ret (set "block"
         (VObj [("type", VStr "Block"); ("nodes", VArr nodes);
                ("filename", fn)])
         node).

Definition parseCode : M obj :=
  tok <- expect "code" ;;
  let node := [("type", VStr "Code"); ("val", VStr (Token.val tok));
               ("buffer", Token.buffer tok); ("escape", Token.escape tok)] in
  let node := if match_else (Token.val tok)
              then set "debug" (VBool false) node else node in
  l <- line ;;
  let node := set "line" l node in
  if Token.isElse tok && negb (Token.hasIf tok) then
    throw ElseWithoutIf "Unexpected else without if"
  else
    b <- peek_is "indent" ;;
    node <- (if b then blk <- block ;; ret (set "block" (VObj blk) node)
             else ret node) ;;
    let node := if Token.requiresBlock tok && negb b
                then set "block" (VObj empty_block) node else node in
    (if Token.isIf tok then
       k <- peek ;;
       if Token.isElse k then set_hasIf 0
       else if String.eqb (Token.type k) "newline" then
         k1 <- lookahead 1 ;;
         if Token.isElse k1 then set_hasIf 1 else ret tt
       else ret tt
     else ret tt) ;;;
    ret node.

Definition parseDoctype : M obj :=
  tok <- expect "doctype" ;;
  ret [("type", VStr "Doctype"); ("val", VStr (Token.val tok));
       ("line", Token.line tok)].

Definition parseExtends : M obj :=
  tok <- expect "extends" ;;
  ret [("type", VStr "Extends"); ("path", VStr (trim (Token.val tok)))].

Definition parseMixinBlock : M obj :=
  expect "mixin-block" ;;;
  m <- this_inMixin ;;
  if negb m then
    throw AnonymousBlockOutsideMixin
      "Anonymous blocks are not allowed unless they are part of a mixin."
  else ret [("type", VStr "MixinBlock")].

Definition parseTextBlock : M (option obj) :=
  s <- peek_is "start-pipeless-text" ;;
  if negb s then ret None
  else
    advance ;;;
    nodes <- while n
      (e <- peek_is "end-pipeless-text" ;; ret (negb e))
      (fun nodes : list value =>
         tok <- advance ;;
         if String.eqb (Token.type tok) "text" then
           ret (nodes ++ [VObj (text_node (Token.val tok))])
         else if String.eqb (Token.type tok) "newline" then
           ret (nodes ++ [VObj (text_node nl)])
         else if String.eqb (Token.type tok) "start-jade-interpolation" then
           e <- parseExpr ;;
           expect "end-jade-interpolation" ;;;
           ret (nodes ++ [VObj e])
         else
           throw UnexpectedToken
             ("Unexpected token type: " ++ Token.type tok))
      [] ;;
    advance ;;;
    ret (Some (block_of nodes)).

Definition parseComment : M obj :=
  tok <- expect "comment" ;;
  b <- parseTextBlock ;;
  match b with
  | Some blk =>
      ret [("type", VStr "BlockComment"); ("val", VStr (Token.val tok));
           ("block", VObj blk); ("buffer", Token.buffer tok);
           ("line", Token.line tok)]
  | None =>
      ret [("type", VStr "Comment"); ("val", VStr (Token.val tok));
           ("buffer", Token.buffer tok); ("line", Token.line tok)]
  end.

Definition parseFilter : M obj :=
  tok <- expect "filter" ;;
  attrs <- accept "attrs" ;;
  b <- parseTextBlock ;;
  let blk := match b with Some blk => blk | None => empty_block end in
  ret [("type", VStr "Filter"); ("name", VStr (Token.val tok));
       ("block", VObj blk);
       ("attrs", match attrs with
                 | Some a => attrs_value (Token.attrs a)
                 | None => VArr []
                 end);
       ("line", Token.line tok)].

Definition parseEach : M obj :=
  tok <- expect "each" ;;
  b <- block ;;
  let node := [("type", VStr "Each"); ("obj", Token.code tok);
               ("val", VStr (Token.val tok)); ("key", Token.key tok);
               ("block", VObj b); ("line", Token.line tok)] in
  k <- peek ;;
  if String.eqb (Token.type k) "code" && String.eqb (Token.val k) "else" then
    advance ;;;
    alt <- block ;;
    ret (set "alternative" (VObj alt) node)
  else ret node.

Definition parseBlock : M obj :=
  tok <- expect "block" ;;
  i <- peek_is "indent" ;;
  node <- (if i then block else ret empty_block) ;;
  let node := set "type" (VStr "NamedBlock") node in
  let node := set "name" (VStr (trim (Token.val tok))) node in
  let node := set "mode" (Token.mode tok) node in
  ret (set "line" (Token.line tok) node).

Definition parseInclude : M obj :=
  tok <- expect "include" ;;
  i <- peek_is "indent" ;;
  b <- (if i then block else ret empty_block) ;;
  ret [("type", VStr "Include"); ("path", VStr (trim (Token.val tok)));
       ("filter", Token.filter tok);
       ("attrs", match Token.attrs tok with
                 | Some l => VArr (map Attr.to_value l)
                 | None => VArr []
                 end);
       ("block", VObj b)].

Definition parseMixin : M obj :=
  tok <- expect "mixin" ;;
  i <- peek_is "indent" ;;
  if i then
    set_inMixin true ;;;
    b <- block ;;
    set_inMixin false ;;;
    ret [("type", VStr "Mixin"); ("name", VStr (Token.val tok));
         ("args", Token.args tok); ("block", VObj b); ("call", VBool false)]
  else
    fn <- this_filename ;;
    console_warn
      ("Deprecated method of calling mixins, use `+name` syntax ("
         ++ ToString fn ++ " line " ++ ToString (Token.line tok) ++ ")") ;;;
    ret [("type", VStr "Mixin"); ("name", VStr (Token.val tok));
         ("args", Token.args tok); ("block", VNull); ("call", VBool true)].

Definition duplicate_attribute {A} (name : string) : M A :=
  throw DuplicateAttribute
    ("Duplicate attribute " ++ dq ++ name ++ dq ++ " is not allowed.").

Definition is_attribute_token (k : Token.t) : bool :=
  String.eqb (Token.type k) "id"
  || String.eqb (Token.type k) "class"
  || String.eqb (Token.type k) "attrs"
  || String.eqb (Token.type k) "&attributes".

(** The body of [for (var i = 0; i < attrs.length; i++)] in [tag]. *)
Definition tag_attr (a : Attr.t) (st : obj * list string)
  : M (obj * list string) :=
  let '(tag, attributeNames) := st in
  attributeNames <-
    (if negb (String.eqb (Attr.name a) "class") then
       if existsb (String.eqb (Attr.name a)) attributeNames
       then duplicate_attribute (Attr.name a)
       else ret (attributeNames ++ [Attr.name a])
     else ret attributeNames) ;;
  tag <- push "attrs" (Attr.to_value a) tag ;;
  ret (tag, attributeNames).

(** One turn of the [(attrs | class | id)*] loop of [tag]; the state is
    [tag], [seenAttrs] and [attributeNames]. *)
Definition tag_attributes (st : obj * bool * list string)
  : M (obj * bool * list string) :=
  let '(tag, seenAttrs, attributeNames) := st in
  k <- peek ;;
  if String.eqb (Token.type k) "id" || String.eqb (Token.type k) "class" then
    tok <- advance ;;
    attributeNames <-
      (if String.eqb (Token.type tok) "id" then
         if existsb (String.eqb "id") attributeNames
         then duplicate_attribute "id"
         else ret (attributeNames ++ ["id"])
       else ret attributeNames) ;;
    tag <- push "attrs"
             (VObj [("name", VStr (Token.type tok));
                    ("val", VStr ("'" ++ Token.val tok ++ "'"));
                    ("escaped", VBool false)]) tag ;;
    ret (tag, seenAttrs, attributeNames)
  else if String.eqb (Token.type k) "attrs" then
    (if seenAttrs then
       fn <- this_filename ;;
       console_warn
         (ToString fn ++ ", line " ++ ToString (Token.line k) ++ ":" ++ nl
            ++ "You should not have jade tags with multiple attributes.")
     else ret tt) ;;;
    tok <- advance ;;
    let tag := if truthy (Token.selfClosing tok)
               then set "selfClosing" (VBool true) tag else tag in
    attrs <- match Token.attrs tok with
             | Some l => ret l
             | None => type_error
             end ;;
    r <- for_each tag_attr attrs (tag, attributeNames) ;;
    ret (fst r, true, snd r)
  else
    tok <- advance ;;
    tag <- push "attributeBlocks" (VStr (Token.val tok)) tag ;;
    ret (tag, seenAttrs, attributeNames).

Definition tag (tag : obj) : M obj :=
  l <- line ;;
  let tag := set "line" l tag in
  st <- while n (k <- peek ;; ret (is_attribute_token k))
          tag_attributes (tag, false, []) ;;
  let tag := fst (fst st) in
  dot <- peek_is "dot" ;;
  tag <- (if dot then advance ;;; ret (set "textOnly" (VBool true) tag)
          else ret tag) ;;
  k <- peek ;;
  tag <-
    (if String.eqb (Token.type k) "text" then
       t <- parseText false ;;
       push_block_node (VObj t) tag
     else if String.eqb (Token.type k) "code" then
       c <- parseCode ;;
       ret (set "code" (VObj c) tag)
     else if String.eqb (Token.type k) ":" then
       advance ;;;
       e <- parseExpr ;;
       ret (set "block" (VObj (block_of [VObj e])) tag)
     else if String.eqb (Token.type k) "newline"
             || String.eqb (Token.type k) "indent"
             || String.eqb (Token.type k) "outdent"
             || String.eqb (Token.type k) "eos"
             || String.eqb (Token.type k) "start-pipeless-text" then
       ret tag
     else
       throw UnexpectedToken
         ("Unexpected token `" ++ Token.type k
            ++ "` expected `text`, `code`, `:`, `newline` or `eos`")) ;;
  while n (peek_is "newline") (fun _ : unit => advance ;;; ret tt) tt ;;;
  if truthy (get "textOnly" tag) then
    b <- parseTextBlock ;;
    ret (set "block"
           (VObj match b with Some blk => blk | None => empty_block end) tag)
  else
    i <- peek_is "indent" ;;
    if i then
      blk <- block ;;
      nodes <- elems (get "nodes" blk) ;;
      for_each push_block_node nodes tag
    else ret tag.

Definition parseCall : M obj :=
  tok <- expect "call" ;;
  let mixin := [("type", VStr "Mixin"); ("name", VStr (Token.val tok));
                ("args", Token.args tok); ("block", VObj empty_block);
                ("call", VBool true); ("attrs", VArr []);
                ("attributeBlocks", VArr [])] in
  mixin <- tag mixin ;;
  mixin <- (if truthy (get "code" mixin) then
              m <- push_block_node (get "code" mixin) mixin ;;
              ret (del "code" m)
            else ret mixin) ;;
  b <- as_obj (get "block" mixin) ;;
  nodes <- elems (get "nodes" b) ;;
  if Nat.eqb (length nodes) 0 then ret (set "block" VNull mixin)
  else ret mixin.

Definition parseInterpolation : M obj :=
  tok <- advance ;;
  tag [("type", VStr "Tag"); ("name", VStr (Token.val tok));
       ("selfClosing", Token.selfClosing tok); ("block", VObj empty_block);
       ("attrs", VArr []); ("attributeBlocks", VArr []);
       ("buffer", VBool true); ("isInline", VBool false)].

Definition parseTag : M obj :=
  tok <- advance ;;
  tag [("type", VStr "Tag"); ("name", VStr (Token.val tok));
       ("selfClosing", Token.selfClosing tok); ("block", VObj empty_block);
       ("attrs", VArr []); ("attributeBlocks", VArr []);
       ("isInline", VBool (existsb (String.eqb (Token.val tok)) inlineTags))].

(** [Parser.prototype.block], with [this.block()] inside parseTextHtml
    left to the variable. *)
Definition block_body : M obj :=
  l <- line ;;
  fn <- this_filename ;;
  expect "indent" ;;;
  nodes <- while n
    (o <- peek_is "outdent" ;; ret (negb o))
    (fun nodes : list value =>
       k <- peek ;;
       if String.eqb (Token.type k) "newline" then
         advance ;;; ret nodes
       else if String.eqb (Token.type k) "text-html" then
         h <- parseTextHtml ;; ret (nodes ++ h)
       else
         expr <- parseExpr ;;
         fn' <- this_filename ;;
         ret (nodes ++ [VObj (set "filename" fn' expr)]))
    [] ;;
  expect "outdent" ;;;
  ret [("type", VStr "Block"); ("nodes", VArr nodes); ("line", l);
       ("filename", fn)].

(** [Parser.prototype.parseExpr]. *)
Definition parseExpr_body : M obj :=
  k <- peek ;;
  let ty := Token.type k in
  if String.eqb ty "tag" then parseTag
  else if String.eqb ty "mixin" then parseMixin
  else if String.eqb ty "block" then parseBlock
  else if String.eqb ty "mixin-block" then parseMixinBlock
  else if String.eqb ty "case" then parseCase
  else if String.eqb ty "extends" then parseExtends
  else if String.eqb ty "include" then parseInclude
  else if String.eqb ty "doctype" then parseDoctype
  else if String.eqb ty "filter" then parseFilter
  else if String.eqb ty "comment" then parseComment
  else if String.eqb ty "text"
          || String.eqb ty "start-jade-interpolation" then parseText true
  else if String.eqb ty "each" then parseEach
  else if String.eqb ty "code" then parseCode
  else if String.eqb ty "call" then parseCall
  else if String.eqb ty "interpolation" then parseInterpolation
  else if String.eqb ty "yield" then
    advance ;;;
    ret (set "yield" (VBool true) empty_block)
  else if String.eqb ty "id" || String.eqb ty "class" then
    TokenStream_defer
      (Token.mk "tag" "div" (Token.line k) VUndef VUndef VUndef VUndef VUndef
                VUndef VUndef VUndef None false false false false) ;;;
    parseExpr
  else
    throw UnexpectedToken ("unexpected token " ++ dq ++ ty ++ dq).

(** [Parser.prototype.parse]. *)
Definition parse_body : M obj :=
  fn <- this_filename ;;
  nodes <- while n
    (e <- peek_is "eos" ;; ret (negb e))
    (fun nodes : list value =>
       next <- peek ;;
       if String.eqb (Token.type next) "newline" then
         advance ;;; ret nodes
       else if String.eqb (Token.type next) "text-html" then
         h <- parseTextHtml ;; ret (nodes ++ h)
       else
         expr <- parseExpr ;;
         fn' <- this_filename ;;
         let expr :=
           set "filename"
             (if truthy (get "filename" expr) then get "filename" expr
              else fn') expr in
         ret (nodes ++ [VObj (set "line" (Token.line next) expr)]))
    [] ;;
  ret [("type", VStr "Block"); ("nodes", VArr nodes); ("line", VNum 0);
       ("filename", fn)].

End Grammar.

(** Tying the recursion: [fuel] bounds the nesting of [parseExpr] and
    [block] calls and, one level down, every loop. *)
Fixpoint parseExpr (fuel : nat) : M obj :=
  match fuel with
  | O => timeout
  | S f => parseExpr_body f (parseExpr f) (block f)
  end
with block (fuel : nat) : M obj :=
  match fuel with
  | O => timeout
  | S f => block_body f (parseExpr f) (block f)
  end.

Definition Parser_parse (fuel : nat) : M obj :=
  parse_body fuel (parseExpr fuel) (block fuel).

(** [new Parser(tokens, filename)]. *)
Definition new_Parser (toks : list Token.t) (fname : value) : Parser :=
  mkParser (mkTokenStream toks lineno0) fname false [].

(** What a call of the exported function comes to. *)
Inductive completion : Type :=
| Returns (ast : value)
| Throws (e : Error)
| Unfinished.

Definition fuel_for (toks : list Token.t) : nat := 2 * length toks + 2.

(** The exported [parse(tokens, filename)]. *)
Definition parse_with (fuel : nat) (toks : list Token.t) (fname : value)
  : completion :=
  match Parser_parse fuel (new_Parser toks fname) with
  | Ok ast _ => Returns (json_clone (VObj ast))
  | Throw e => Throws e
  | OutOfFuel => Unfinished
  end.

Definition parse (toks : list Token.t) (fname : value) : completion :=
  parse_with (fuel_for toks) toks fname.

(** ** Vocabulary of the properties *)

(** The [nodes] array of a Block. *)
Definition nodes_of (v : value) : list value :=
  match prop "nodes" v with
  | VArr l => l
  | _ => []
  end.

Definition else_without_if : Error :=
  Thrown ElseWithoutIf "Unexpected else without if".

Definition anonymous_block : Error :=
  Thrown AnonymousBlockOutsideMixin
    "Anonymous blocks are not allowed unless they are part of a mixin.".

Definition eos : Token.t := Token.simple "eos" "" 0.

(** [code('else', isElse)] *)
Definition code_else : Token.t :=
  Token.with_flags false true false (Token.simple "code" "else" 1).

(** [code('if x', isIf)] *)
Definition code_if : Token.t :=
  Token.with_flags true false false (Token.simple "code" "if x" 1).

(** [mixin 'm', indent, mixin-block, outdent], closed by [eos]. *)
Definition mixin_with_block : list Token.t :=
  [Token.simple "mixin" "m" 1; Token.simple "indent" "" 2;
   Token.simple "mixin-block" "" 2; Token.simple "outdent" "" 3; eos].

(** [mixin 'outer', indent, mixin 'inner', indent, tag 'p', outdent,
    mixin-block, outdent], closed by [eos]: a mixin-block in the outer body,
    behind a nested definition. *)
Definition nested_mixins : list Token.t :=
  [Token.simple "mixin" "outer" 1; Token.simple "indent" "" 2;
   Token.simple "mixin" "inner" 2; Token.simple "indent" "" 3;
   Token.simple "tag" "p" 3; Token.simple "outdent" "" 4;
   Token.simple "mixin-block" "" 4; Token.simple "outdent" "" 5; eos].

(** [code('if x', isIf), indent, code('y'), outdent, code('else', isElse)],
    closed by [eos]. *)
Definition if_else : list Token.t :=
  [code_if; Token.simple "indent" "" 2; Token.simple "code" "y" 2;
   Token.simple "outdent" "" 3; code_else; eos].

(** The linking of an else to its if as the specification words it: the
    next token if it is flagged isElse, otherwise the token behind a single
    newline if that one is flagged isElse, gets hasIf. *)
Definition link_else (l : list Token.t) : list Token.t :=
  match l with
  | [] => []
  | k :: r =>
      if Token.isElse k then Token.mark_hasIf k :: r
      else if String.eqb (Token.type k) "newline" then
        match r with
        | k1 :: r' =>
            if Token.isElse k1 then k :: Token.mark_hasIf k1 :: r' else l
        | [] => l
        end
      else l
  end.

(** The attribute names a run of id / class / attrs / &attributes tokens
    brings under the uniqueness check: ['id'] for every id token and, for
    every attrs token, the names of its entries other than ['class']. *)
Definition checked_names (k : Token.t) : list string :=
  if String.eqb (Token.type k) "id" then ["id"]
  else if String.eqb (Token.type k) "attrs" then
    filter (fun nm => negb (String.eqb nm "class"))
           (map Attr.name (match Token.attrs k with
                           | Some l => l
                           | None => []
                           end))
  else [].

Definition attribute_names (run : list Token.t) : list string :=
  flat_map checked_names run.

(** The first name of [l] that occurs in [seen] or earlier in [l]. *)
Fixpoint first_duplicate (seen l : list string) : option string :=
  match l with
  | [] => None
  | x :: r =>
      if existsb (String.eqb x) seen then Some x
      else first_duplicate (seen ++ [x]) r
  end.

(** The object [tag] appends to [tag.attrs] for an entry of an attrs
    token: its name, value and escaped flag. *)
Definition attr_entry (a : Attr.t) : value :=
  VObj [("name", VStr (Attr.name a)); ("val", Attr.val a);
        ("escaped", Attr.escaped a)].

(** The entries a token of the run appends to [tag.attrs]. *)
Definition attr_entries (k : Token.t) : list value :=
  if String.eqb (Token.type k) "id" || String.eqb (Token.type k) "class" then
    [VObj [("name", VStr (Token.type k));
           ("val", VStr ("'" ++ Token.val k ++ "'"));
           ("escaped", VBool false)]]
  else if String.eqb (Token.type k) "attrs" then
    map attr_entry (match Token.attrs k with
                    | Some l => l
                    | None => []
                    end)
  else [].

(** A token of the run as the lexer emits it: an attrs token carries its
    array. *)
Definition attribute_token (k : Token.t) : Prop :=
  is_attribute_token k = true
  /\ (Token.type k = "attrs" -> Token.attrs k <> None).

Definition class_a : Attr.t := Attr.mk "class" (VStr "a") (VBool true).
Definition class_b : Attr.t := Attr.mk "class" (VStr "b") (VBool true).

(** [tag 'div', attrs [{class,'a'}], attrs [{class,'b'}]], closed by
    [eos]. *)
Definition div_two_classes : list Token.t :=
  [Token.simple "tag" "div" 1;
   Token.with_attrs [class_a] (Token.simple "attrs" "" 1);
   Token.with_attrs [class_b] (Token.simple "attrs" "" 1);
   eos].

(** The Text node parseTextHtml makes of a run of text-html tokens. *)
Definition html_text (val : string) (fname line : value) : value :=
  VObj [("type", VStr "Text"); ("val", VStr val); ("filename", fname);
        ("line", line); ("isHtml", VBool true)].

(** What ends a run of text-html tokens: a token that is neither text-html
    nor indent; a newline is consumed with the run, and then the token
    behind it must not be text-html. *)
Definition html_run_ends (rest : list Token.t) : Prop :=
  match rest with
  | [] => False
  | k :: r =>
      Token.type k <> "text-html" /\ Token.type k <> "indent"
      /\ (Token.type k = "newline" ->
          match r with
          | [] => False
          | k1 :: _ => Token.type k1 <> "text-html"
          end)
  end.

Definition after_html_run (rest : list Token.t) : list Token.t :=
  match rest with
  | [] => []
  | k :: r => if String.eqb (Token.type k) "newline" then r else rest
  end.

(** [text-html 'a', text-html 'b', newline], closed by [eos]. *)
Definition two_html_lines : list Token.t :=
  [Token.simple "text-html" "a" 1; Token.simple "text-html" "b" 2;
   Token.simple "newline" "" 3; eos].

(** The state of the loop of parseTextHtml while it only meets text-html
    tokens: no node yet, or one Text node, aliased by [currentNode], with
    the text and the line it has so far. *)
Definition html_state (fname : value) (c : option (string * value))
  : list value * option nat :=
  match c with
  | None => ([], None)
  | Some (text, line) => ([html_text text fname line], Some 0)
  end.

Definition html_add (c : option (string * value)) (k : Token.t)
  : option (string * value) :=
  match c with
  | None => Some (Token.val k, Token.line k)
  | Some (text, line) => Some ((text ++ nl ++ Token.val k)%string, line)
  end.

(** Modelled from the spec: the static inline-element name table that
    index.js requires from lib/inline-tags, a file that is not under src/;
    the names are the inline elements of HTML. *)
Definition inline_tags : list string :=
  ["a"; "abbr"; "acronym"; "b"; "br"; "code"; "em"; "font"; "i"; "img";
   "ins"; "kbd"; "map"; "samp"; "small"; "span"; "strong"; "sub"; "sup"].

(** A cursor that keeps no line number: [lineno] reads [undefined] and
    consuming a token leaves it so. *)
Definition no_lineno : Token.t -> value -> value := fun _ l => l.

(** A parser on given tokens, for the file ["f.pug"]. *)
Definition parser_on (toks : list Token.t) : Parser :=
  mkParser (mkTokenStream toks VUndef) (VStr "f.pug") false [].

Definition attr_id (v : string) : Attr.t := Attr.mk "id" (VStr v) (VBool true).

(** [tag 'div', id 'x', attrs [{id,'y'}]], closed by [eos]. *)
Definition div_two_ids : list Token.t :=
  [Token.simple "tag" "div" 1; Token.simple "id" "x" 1;
   Token.with_attrs [attr_id "y"] (Token.simple "attrs" "" 1); eos].

(** *** The shape of the tree *)

(** The node types the parser writes. *)
Definition node_types : list string :=
  ["Block"; "Text"; "Case"; "When"; "Code"; "BlockComment"; "Comment";
   "Doctype"; "Filter"; "Each"; "Extends"; "NamedBlock"; "MixinBlock";
   "Include"; "Mixin"; "Tag"].

(** The properties that hold a child node: [block], [code] and
    [alternative]; [nodes] holds an array of them. *)
Definition child_key (k : string) : bool :=
  String.eqb k "block" || String.eqb k "code" || String.eqb k "alternative".

(** [child v w]: [w] is the node under [v.block], [v.code] or
    [v.alternative], or an element of [v.nodes]. *)
Inductive child : value -> value -> Prop :=
| child_property (o : obj) (k : string) :
    child_key k = true -> get k o <> VUndef -> get k o <> VNull ->
    child (VObj o) (get k o)
| child_element (o : obj) (l : list value) (v : value) :
    get "nodes" o = VArr l -> In v l -> child (VObj o) v.

(** The nodes of a tree: its root and the children below it. *)
Inductive node_of : value -> value -> Prop :=
| node_root (v : value) : node_of v v
| node_below (v w x : value) : child v w -> node_of w x -> node_of v x.

(** A well-formed tree: an object whose [type] is one of the node types,
    whose child properties are absent, null or well-formed trees, and whose
    [nodes], if any, is an array of well-formed trees. *)
Inductive Node : value -> Prop :=
| Node_object (o : obj) (t : string) :
    get "type" o = VStr t -> In t node_types -> Forall Field o ->
    Node (VObj o)
with Field : string * value -> Prop :=
| Field_data (k : string) (v : value) :
    child_key k = false -> k <> "nodes" -> Field (k, v)
| Field_undefined (k : string) : Field (k, VUndef)
| Field_null (k : string) : Field (k, VNull)
| Field_node (k : string) (v : value) : Node v -> Field (k, v)
| Field_nodes (l : list value) :
    Forall Node l -> Field ("nodes", VArr l).

Definition node (o : obj) : Prop := Node (VObj o).

(** [m] returns only results that satisfy [Q]. *)
Definition returns {A} (m : M A) (Q : A -> Prop) : Prop :=
  forall p a p', m p = Ok a p' -> Q a.

(** *** Consumption *)

(** The number of tokens left on the cursor. *)
Definition size (p : Parser) : nat := length (_tokens (tokens p)).

(** [m], run on [p], does not run out of fuel, and when it returns, at
    least [d] tokens are gone. *)
Definition ok {A} (d : nat) (m : M A) (p : Parser) : Prop :=
  match m p with
  | Ok _ p' => size p' + d <= size p
  | Throw _ => True
  | OutOfFuel => False
  end.

(** Whether the next token is one of the tokens the attribute loop of [tag]
    consumes. *)
Definition attribute_ahead (p : Parser) : bool :=
  match _tokens (tokens p) with
  | k :: _ => is_attribute_token k
  | [] => false
  end.

(** A stream that begins with a tag token and an id or class token behind
    it, as parseExpr leaves it when it defers the implicit div. *)
Definition deferred_tag (p : Parser) : Prop :=
  exists k k' r,
    _tokens (tokens p) = k :: k' :: r
    /\ Token.type k = "tag"
    /\ (Token.type k' = "id" \/ Token.type k' = "class").

(** The error [tag] throws for a repeated attribute name. *)
Definition duplicate_error (x : string) : Error :=
  Thrown DuplicateAttribute
    ("Duplicate attribute " ++ dq ++ x ++ dq ++ " is not allowed.").

(** The properties [tag] writes. *)
Definition written_by_tag (k : string) : Prop :=
  In k ["line"; "attrs"; "attributeBlocks"; "selfClosing"; "textOnly";
        "block"; "code"].

(** The error of the cursor when it is read past its last token. *)
Definition past_the_end : Error :=
  Thrown EndOfStream "Cannot read past the end of a stream".

(** [text 'a', text 'b'], closed by [eos], and the tree [parse] returns for
    it under the file name ["f.pug"]: the two Text nodes of the run, wrapped
    in a Block under the root. *)
Definition two_texts : list Token.t :=
  [Token.simple "text" "a" 1; Token.simple "text" "b" 1; eos].

Definition two_texts_tree : value :=
  VObj [("type", VStr "Block");
        ("nodes",
         VArr [VObj [("type", VStr "Block");
                     ("nodes",
                      VArr [VObj [("type", VStr "Text"); ("val", VStr "a")];
                            VObj [("type", VStr "Text"); ("val", VStr "b")]]);
                     ("filename", VStr "f.pug");
                     ("line", VNum 1)]]);
        ("line", VNum 0);
        ("filename", VStr "f.pug")].

(** The tree [parse] returns for [interpolation 'a'], closed by [eos]. *)
Definition interpolated_a_tree : value :=
  VObj [("type", VStr "Block");
        ("nodes",
         VArr [VObj [("type", VStr "Tag"); ("name", VStr "a");
                     ("block",
                      VObj [("type", VStr "Block"); ("nodes", VArr [])]);
                     ("attrs", VArr []); ("attributeBlocks", VArr []);
                     ("buffer", VBool true); ("isInline", VBool false);
                     ("line", VNum 1); ("filename", VStr "f.pug")]]);
        ("line", VNum 0);
        ("filename", VStr "f.pug")].

(** The token types with which an expression can begin: the cases of the
    switch in parseExpr. *)
Definition expression_tokens : list string :=
  ["tag"; "mixin"; "block"; "mixin-block"; "case"; "extends"; "include";
   "doctype"; "filter"; "comment"; "text"; "start-jade-interpolation";
   "each"; "code"; "call"; "interpolation"; "yield"; "id"; "class"].


(** The tokens of a pipeless text block that carry no interpolation, and
    the Text node parseTextBlock makes of each: the token's text, or a line
    feed for a newline token. *)
Definition plain_text_token (k : Token.t) : Prop :=
  Token.type k = "text" \/ Token.type k = "newline".

Definition pipeless_text (k : Token.t) : value :=
  VObj [("type", VStr "Text");
        ("val", VStr (if String.eqb (Token.type k) "text"
                      then Token.val k else nl))].

(** The token types parseCase takes inside the block of a case. *)
Definition case_tokens : list string :=
  ["outdent"; "newline"; "when"; "default"].

(** The error parseCase throws for any other token. *)
Definition case_error (ty : string) : Error :=
  Thrown UnexpectedCaseToken
    ("Unexpected token " ++ dq ++ ty ++ dq ++ ", expected " ++ dq ++ "when"
       ++ dq ++ ", " ++ dq ++ "default" ++ dq ++ " or " ++ dq ++ "newline"
       ++ dq).
(** ** Reasoning about computations *)

Local Arguments String.eqb : simpl never.

Lemma bind_Ok {A B} (m : M A) (f : A -> M B) p b p' :
  bind m f p = Ok b p' <->
  exists a p1, m p = Ok a p1 /\ f a p1 = Ok b p'.
Proof.
  unfold bind. split.
  - destruct (m p) as [a p1 | e |] eqn:E; try discriminate.
    intros H. exists a, p1. split; [reflexivity | exact H].
  - intros (a & p1 & E & H). rewrite E. exact H.
Qed.

Lemma bind_Throw {A B} (m : M A) (f : A -> M B) p e :
  bind m f p = Throw e <->
  m p = Throw e \/ exists a p1, m p = Ok a p1 /\ f a p1 = Throw e.
Proof.
  unfold bind. split.
  - destruct (m p) as [a p1 | e' |] eqn:E; try discriminate.
    + intros H. right. exists a, p1. split; [reflexivity | exact H].
    + intros H. left. congruence.
  - intros [E | (a & p1 & E & H)]; rewrite E; [reflexivity | exact H].
Qed.

(** *** The cursor *)

Lemma peek_cons k r ln fn im con :
  peek (mkParser (mkTokenStream (k :: r) ln) fn im con)
  = Ok k (mkParser (mkTokenStream (k :: r) ln) fn im con).
Proof. reflexivity. Qed.

Lemma advance_cons k r ln fn im con :
  advance (mkParser (mkTokenStream (k :: r) ln) fn im con)
  = Ok k (mkParser (mkTokenStream r (lineno_after k ln)) fn im con).
Proof. reflexivity. Qed.

Lemma expect_cons ty k r ln fn im con :
  Token.type k = ty ->
  expect ty (mkParser (mkTokenStream (k :: r) ln) fn im con)
  = Ok k (mkParser (mkTokenStream r (lineno_after k ln)) fn im con).
Proof.
  intros H. unfold expect, bind. rewrite peek_cons, H, String.eqb_refl.
  apply advance_cons.
Qed.

Lemma peek_is_cons ty k r ln fn im con :
  peek_is ty (mkParser (mkTokenStream (k :: r) ln) fn im con)
  = Ok (String.eqb (Token.type k) ty)
       (mkParser (mkTokenStream (k :: r) ln) fn im con).
Proof. reflexivity. Qed.

(** ** lookahead *)

(** C6, as the cursor has it: [lookahead] counts from zero, so
    [lookahead(0)] is the token [peek()] returns and [lookahead(1)] is the
    token behind it; neither consumes anything. *)
Theorem lookahead_counts_from_zero :
  forall p : Parser,
    lookahead 0 p = peek p
    /\ (forall k0 k1 r,
           _tokens (tokens p) = k0 :: k1 :: r ->
           peek p = Ok k0 p /\ lookahead 1 p = Ok k1 p).
Proof.
  intros p. split.
  - unfold lookahead, TokenStream_lookahead, peek, TokenStream_peek.
    destruct (_tokens (tokens p)); reflexivity.
  - intros k0 k1 r H.
    unfold lookahead, TokenStream_lookahead, peek, TokenStream_peek.
    rewrite H. split; reflexivity.
Qed.

(** ** parseCode *)

Ltac destruct_parser p :=
  let ts := fresh "ts" in
  let ln := fresh "ln" in
  destruct p as [[ts ln] ? ? ?]; simpl in *; subst.

(** C7: parseCode throws "Unexpected else without if" when the code token
    it consumed is flagged isElse and carries no hasIf; when the token is
    not so flagged, an error of that kind can only come out of the nested
    block; and the one-token sequence [code('else', isElse)] fails with it,
    so that no node is returned. *)
Theorem parseCode_else_without_if :
  forall (blk : M obj) (p : Parser) (tok : Token.t) (rest : list Token.t),
    _tokens (tokens p) = tok :: rest ->
    Token.type tok = "code" ->
    (Token.isElse tok = true -> Token.hasIf tok = false ->
     parseCode blk p = Throw else_without_if)
    /\ (~ (Token.isElse tok = true /\ Token.hasIf tok = false) ->
        forall e, parseCode blk p = Throw e ->
                  kind_of e = ElseWithoutIf ->
                  exists q, blk q = Throw e)
    /\ (forall fname, parse [code_else] fname = Throws else_without_if).
Proof.
  intros blk p tok rest Hp Hty.
  destruct_parser p.
  split; [| split].
  - intros He Hh.
    unfold parseCode, bind. rewrite expect_cons by assumption.
    unfold line; simpl. rewrite He, Hh. reflexivity.
  - intros Hn e H Hk.
    unfold parseCode in H. unfold bind at 1 in H.
    rewrite expect_cons in H by assumption.
    unfold bind at 1 in H. unfold line in H; simpl in H.
    destruct (Token.isElse tok && negb (Token.hasIf tok)) eqn:Hc.
    { exfalso. apply Hn. apply andb_true_iff in Hc. destruct Hc as [? Hc].
      apply negb_true_iff in Hc. split; assumption. }
    apply bind_Throw in H. destruct H as [H | (b & p1 & H1 & H)].
    { unfold peek_is, bind, peek, TokenStream_peek in H; simpl in H.
      destruct rest; inversion H; subst; discriminate. }
    apply bind_Throw in H. destruct H as [H | (node & p2 & H2 & H)].
    { destruct b.
      - apply bind_Throw in H. destruct H as [H | (? & ? & ? & H)].
        + eexists; exact H.
        + discriminate.
      - discriminate. }
    apply bind_Throw in H. destruct H as [H | (? & ? & ? & H)];
      [| discriminate].
    destruct (Token.isIf tok); [| discriminate].
    apply bind_Throw in H. destruct H as [H | (k & p3 & H3 & H)].
    { unfold peek, TokenStream_peek in H.
      destruct (_tokens (tokens p2)); inversion H; subst; discriminate. }
    destruct (Token.isElse k); [discriminate |].
    destruct (String.eqb (Token.type k) "newline"); [| discriminate].
    apply bind_Throw in H. destruct H as [H | (k1 & p4 & H4 & H)].
    { unfold lookahead, TokenStream_lookahead in H.
      destruct (nth_error _ _); inversion H; subst; discriminate. }
    destruct (Token.isElse k1); discriminate.
  - intros fname. reflexivity.
Qed.

Lemma link_else_head k r :
  Token.isElse k = true ->
  exists k', link_else (k :: r) = k' :: r
             /\ Token.hasIf k' = true /\ Token.isElse k' = true
             /\ Token.type k' = Token.type k /\ Token.val k' = Token.val k.
Proof.
  intros H. simpl. rewrite H. eexists. repeat split; try reflexivity.
  exact H.
Qed.

(** C2: once parseCode has consumed a token flagged isIf, together with its
    indented block when there is one, the tokens left are the remaining ones
    with the else linked: hasIf is set on the next token if it is flagged
    isElse, or on the token behind a newline if that one is.  So the
    sequence if / indent / code / outdent / else parses into two Code nodes,
    the second without a block. *)
Theorem parseCode_links_else :
  forall (blk : M obj) (p p' : Parser) (node : obj) tok rest,
    _tokens (tokens p) = tok :: rest ->
    Token.isIf tok = true ->
    parseCode blk p = Ok node p' ->
    (exists q,
        _tokens (tokens p') = link_else (_tokens (tokens q))
        /\ ((exists k r, rest = k :: r /\ Token.type k <> "indent"
                         /\ _tokens (tokens q) = rest)
            \/ (exists k r q0 b, rest = k :: r /\ Token.type k = "indent"
                                 /\ _tokens (tokens q0) = rest
                                 /\ blk q0 = Ok b q)))
    /\ (forall fname,
           exists ast c1 c2,
             parse if_else fname = Returns ast
             /\ nodes_of ast = [c1; c2]
             /\ prop "type" c1 = VStr "Code" /\ prop "val" c1 = VStr "if x"
             /\ prop "type" c2 = VStr "Code" /\ prop "val" c2 = VStr "else"
             /\ prop "block" c2 = VUndef).
Proof.
  intros blk p p' node tok rest Hp Hif H.
  split.
  - destruct_parser p.
    unfold parseCode in H. apply bind_Ok in H.
    destruct H as (tok' & p1 & He & H).
    unfold expect, bind in He. rewrite peek_cons in He.
    destruct (String.eqb (Token.type tok) "code"); [| discriminate].
    rewrite advance_cons in He. inversion He; subst tok' p1; clear He.
    apply bind_Ok in H. destruct H as (l & p1 & Hl & H).
    unfold line in Hl; simpl in Hl. inversion Hl; subst l p1; clear Hl.
    destruct (Token.isElse tok && negb (Token.hasIf tok)); [discriminate |].
    apply bind_Ok in H. destruct H as (b & p1 & Hb & H).
    apply bind_Ok in H. destruct H as (node1 & q & Hq & H).
    apply bind_Ok in H. destruct H as ([] & p2 & Hm & H).
    inversion H; subst p2; clear H.
    exists q. split.
    + rewrite Hif in Hm.
      apply bind_Ok in Hm. destruct Hm as (k & q1 & Hk & Hm).
      unfold peek, TokenStream_peek in Hk.
      destruct (_tokens (tokens q)) as [| k0 r0] eqn:Hq0; [discriminate |].
      inversion Hk; subst k0 q1; clear Hk.
      simpl. destruct (Token.isElse k).
      * inversion Hm; subst p'. simpl. rewrite Hq0. reflexivity.
      * destruct (String.eqb (Token.type k) "newline").
        -- apply bind_Ok in Hm. destruct Hm as (k1 & q1 & Hk1 & Hm).
           unfold lookahead, TokenStream_lookahead in Hk1.
           rewrite Hq0 in Hk1. simpl in Hk1.
           destruct r0 as [| k1' r1]; [discriminate |].
           simpl in Hk1. inversion Hk1; subst k1' q1; clear Hk1.
           destruct (Token.isElse k1).
           ++ inversion Hm; subst p'. simpl. rewrite Hq0. reflexivity.
           ++ inversion Hm; subst p'. exact Hq0.
        -- inversion Hm; subst p'. exact Hq0.
    + destruct rest as [| k r]; [discriminate |].
      rewrite peek_is_cons in Hb. inversion Hb; subst b p1; clear Hb.
      destruct (String.eqb (Token.type k) "indent") eqn:Hi.
      * right. apply String.eqb_eq in Hi.
        apply bind_Ok in Hq. destruct Hq as (b & q1 & Hblk & Hq).
        inversion Hq; subst q1.
        eexists k, r, _, b. split; [reflexivity |]. split; [exact Hi |].
        split; [| exact Hblk]. reflexivity.
      * left. apply String.eqb_neq in Hi.
        inversion Hq; subst q.
        exists k, r. split; [reflexivity |]. split; [exact Hi |].
        reflexivity.
  - intros fname.
    exists (match parse if_else fname with Returns a => a | _ => VUndef end).
    exists (nth 0 (nodes_of (match parse if_else fname with
                             | Returns a => a
                             | _ => VUndef
                             end)) VUndef).
    exists (nth 1 (nodes_of (match parse if_else fname with
                             | Returns a => a
                             | _ => VUndef
                             end)) VUndef).
    destruct fname; vm_compute; repeat split; reflexivity.
Qed.

(** ** Mixins *)

(** C4: parseMixinBlock throws when the inMixin flag is unset and returns
    the MixinBlock placeholder when it is set; a lone mixin-block token at
    top level fails, and one in the body of a mixin definition parses into
    the placeholder. *)
Theorem mixin_block_needs_inMixin :
  forall (p : Parser) tok rest,
    _tokens (tokens p) = tok :: rest ->
    Token.type tok = "mixin-block" ->
    (inMixin p = false -> parseMixinBlock p = Throw anonymous_block)
    /\ (inMixin p = true ->
        exists p', parseMixinBlock p = Ok [("type", VStr "MixinBlock")] p'
                   /\ _tokens (tokens p') = rest)
    /\ (forall fname,
           parse [Token.simple "mixin-block" "" 1] fname
           = Throws anonymous_block)
    /\ (forall fname,
           exists ast mixin node,
             parse mixin_with_block fname = Returns ast
             /\ nodes_of ast = [mixin]
             /\ prop "type" mixin = VStr "Mixin"
             /\ prop "call" mixin = VBool false
             /\ nodes_of (prop "block" mixin) = [node]
             /\ prop "type" node = VStr "MixinBlock").
Proof.
  intros p tok rest Hp Hty. destruct_parser p.
  repeat split.
  - intros Hm. subst. unfold parseMixinBlock, bind.
    rewrite expect_cons by assumption. reflexivity.
  - intros Hm. subst. unfold parseMixinBlock, bind.
    rewrite expect_cons by assumption. simpl.
    eexists. split; reflexivity.
  - intros fname.
    do 3 eexists. split; [reflexivity |]. repeat split; reflexivity.
Qed.

(** C5: inMixin is one flag of the parser.  A mixin definition runs its body
    with the flag set and leaves with the flag cleared, whatever it was
    before; so behind a nested definition the outer body runs with the flag
    cleared, and a mixin-block token there throws. *)
Theorem inMixin_is_cleared :
  forall (blk : M obj) (p p' : Parser) (node : obj) tok k rest,
    _tokens (tokens p) = tok :: k :: rest ->
    Token.type tok = "mixin" ->
    Token.type k = "indent" ->
    parseMixin blk p = Ok node p' ->
    (exists q b q',
        inMixin q = true
        /\ _tokens (tokens q) = k :: rest
        /\ blk q = Ok b q'
        /\ inMixin p' = false
        /\ tokens p' = tokens q'
        /\ get "block" node = VObj b)
    /\ (forall fname, parse nested_mixins fname = Throws anonymous_block).
Proof.
  intros blk p p' node tok k rest Hp Hty Hk H.
  split.
  - destruct_parser p.
    unfold parseMixin, bind in H.
    rewrite expect_cons in H by assumption.
    rewrite peek_is_cons, Hk in H. simpl in H.
    match type of H with
    | match blk ?q with _ => _ end = _ =>
        destruct (blk q) as [b q' | |] eqn:Hb; try discriminate;
        exists q, b, q'
    end.
    simpl in H. inversion H; subst. simpl.
    repeat split; try reflexivity. exact Hb.
  - intros fname. reflexivity.
Qed.

(** ** Objects *)

Lemma get_set_same k v o : get k (set k v o) = v.
Proof.
  induction o as [| [k' v'] r IH]; simpl.
  - rewrite String.eqb_refl. reflexivity.
  - destruct (String.eqb k k') eqn:E; simpl.
    + rewrite String.eqb_refl. reflexivity.
    + rewrite E. exact IH.
Qed.

Lemma get_set_other k k' v o : k <> k' -> get k (set k' v o) = get k o.
Proof.
  intros Hne. induction o as [| [k0 v0] r IH]; simpl.
  - destruct (String.eqb_spec k k'); [contradiction | reflexivity].
  - destruct (String.eqb_spec k' k0); simpl.
    + subst k0. destruct (String.eqb_spec k k'); [contradiction | reflexivity].
    + destruct (String.eqb_spec k k0); [reflexivity | exact IH].
Qed.

Lemma get_del_other k k' o : k <> k' -> get k (del k' o) = get k o.
Proof.
  intros Hne. induction o as [| [k0 v0] r IH]; simpl.
  - reflexivity.
  - destruct (String.eqb_spec k' k0); simpl.
    + subst k0. destruct (String.eqb_spec k k'); [contradiction | reflexivity].
    + destruct (String.eqb_spec k k0); [reflexivity | exact IH].
Qed.

(** ** Duplicate attributes *)

Lemma first_duplicate_app seen l1 l2 :
  first_duplicate seen (l1 ++ l2)
  = match first_duplicate seen l1 with
    | Some x => Some x
    | None => first_duplicate (seen ++ l1) l2
    end.
Proof.
  revert seen. induction l1 as [| x r IH]; intros seen; simpl.
  - rewrite app_nil_r. reflexivity.
  - destruct (existsb (String.eqb x) seen); [reflexivity |].
    rewrite IH, <- app_assoc. reflexivity.
Qed.

(** The [for] loop of [tag] over the entries of one attrs token. *)
Lemma for_each_tag_attr (l : list Attr.t) :
  forall (tag : obj) (names : list string) (old : list value) (p : Parser),
    get "attrs" tag = VArr old ->
    match first_duplicate names
            (filter (fun nm => negb (String.eqb nm "class"))
                    (map Attr.name l)) with
    | Some x => for_each tag_attr l (tag, names) p
                = Throw (Thrown DuplicateAttribute
                           ("Duplicate attribute " ++ dq ++ x ++ dq
                              ++ " is not allowed."))
    | None =>
        exists tag',
          for_each tag_attr l (tag, names) p
          = Ok (tag',
                names ++ filter (fun nm => negb (String.eqb nm "class"))
                                (map Attr.name l)) p
          /\ get "attrs" tag' = VArr (old ++ map attr_entry l)
          /\ (forall k, k <> "attrs" -> get k tag' = get k tag)
    end.
Proof.
  induction l as [| a r IH]; intros tag names old p Hattrs; simpl.
  - exists tag. rewrite !app_nil_r. repeat split; auto.
  - unfold bind at 1. unfold tag_attr at 1.
    destruct (String.eqb (Attr.name a) "class") eqn:Hc; simpl.
    + unfold bind at 1. unfold push, bind. rewrite Hattrs. simpl.
      specialize (IH (set "attrs" (VArr (old ++ [Attr.to_value a])) tag)
                     names (old ++ [Attr.to_value a]) p
                     (get_set_same _ _ _)).
      destruct (first_duplicate names _) as [x |].
      * exact IH.
      * destruct IH as (tag' & H1 & H2 & H3). exists tag'.
        rewrite H1, H2, <- app_assoc. repeat split; auto.
        intros k Hk. rewrite H3, get_set_other by assumption. reflexivity.
    + unfold bind at 1.
      destruct (existsb (String.eqb (Attr.name a)) names) eqn:Hd.
      * reflexivity.
      * simpl. unfold push, bind. rewrite Hattrs. simpl.
        specialize (IH (set "attrs" (VArr (old ++ [Attr.to_value a])) tag)
                       (names ++ [Attr.name a]) (old ++ [Attr.to_value a]) p
                       (get_set_same _ _ _)).
        destruct (first_duplicate (names ++ [Attr.name a]) _) as [x |].
        -- exact IH.
        -- destruct IH as (tag' & H1 & H2 & H3). exists tag'.
           rewrite H1, H2, <- !app_assoc. repeat split; auto.
           intros k Hk. rewrite H3, get_set_other by assumption. reflexivity.
Qed.

Lemma while_S {A} n (cond : M bool) (body : A -> M A) a :
  while (S n) cond body a
  = (c <- cond ;; if c then a' <- body a ;; while n cond body a' else ret a).
Proof. reflexivity. Qed.

Lemma while_step {A} n (cond : M bool) (body : A -> M A) a a' p p' :
  cond p = Ok true p -> body a p = Ok a' p' ->
  while (S n) cond body a p = while n cond body a' p'.
Proof. intros Hc Hb. rewrite while_S. unfold bind. rewrite Hc, Hb. reflexivity. Qed.

Lemma while_step_throw {A} n (cond : M bool) (body : A -> M A) a p e :
  cond p = Ok true p -> body a p = Throw e ->
  while (S n) cond body a p = Throw e.
Proof. intros Hc Hb. rewrite while_S. unfold bind. rewrite Hc, Hb. reflexivity. Qed.

Lemma while_exit {A} n (cond : M bool) (body : A -> M A) a p :
  cond p = Ok false p -> while (S n) cond body a p = Ok a p.
Proof. intros Hc. rewrite while_S. unfold bind. rewrite Hc. reflexivity. Qed.

(** Running a computation forward on a state whose tokens are known. *)
Ltac mrun :=
  cbn [bind ret throw timeout peek advance line lookahead peek_is expect
       accept TokenStream_peek TokenStream_advance TokenStream_lookahead
       TokenStream_defer this_filename this_inMixin set_inMixin console_warn
       set_hasIf end_of_stream type_error duplicate_attribute
       tokens _tokens lineno filename inMixin console
       push push_block_node elems as_obj fst snd orb andb negb app].

Ltac mrun_in H :=
  cbn [bind ret throw timeout peek advance line lookahead peek_is expect
       accept TokenStream_peek TokenStream_advance TokenStream_lookahead
       TokenStream_defer this_filename this_inMixin set_inMixin console_warn
       set_hasIf end_of_stream type_error duplicate_attribute
       tokens _tokens lineno filename inMixin console
       push push_block_node elems as_obj fst snd orb andb negb app] in H.

(** One turn of the [(attrs | class | id)*] loop of [tag]. *)
Lemma tag_attributes_token k r tag seen names oldA oldB ln fn im con :
  attribute_token k ->
  get "attrs" tag = VArr oldA ->
  get "attributeBlocks" tag = VArr oldB ->
  match first_duplicate names (checked_names k) with
  | Some x =>
      tag_attributes (tag, seen, names)
        (mkParser (mkTokenStream (k :: r) ln) fn im con)
      = Throw (duplicate_error x)
  | None =>
      exists tag' seen' con' oldB',
        tag_attributes (tag, seen, names)
          (mkParser (mkTokenStream (k :: r) ln) fn im con)
        = Ok (tag', seen', names ++ checked_names k)
             (mkParser (mkTokenStream r (lineno_after k ln)) fn im con')
        /\ get "attrs" tag' = VArr (oldA ++ attr_entries k)
        /\ get "attributeBlocks" tag' = VArr oldB'
        /\ (forall x, x <> "attrs" -> x <> "attributeBlocks" ->
                      x <> "selfClosing" -> get x tag' = get x tag)
  end.
Proof.
  intros [Hk Hwf] HA HB.
  unfold checked_names, attr_entries, tag_attributes.
  unfold is_attribute_token in Hk.
  mrun.
  destruct (String.eqb (Token.type k) "id") eqn:Hid.
  - mrun. rewrite ?Hid. mrun. cbn [first_duplicate].
    destruct (existsb (String.eqb "id") names) eqn:Hd; [reflexivity |].
    mrun. unfold push. rewrite HA. mrun.
    eexists _, _, _, _. split; [reflexivity |].
    rewrite get_set_same. rewrite get_set_other by discriminate.
    repeat split; eauto.
    intros x Ha Hb Hc. apply get_set_other; assumption.
  - destruct (String.eqb (Token.type k) "class") eqn:Hcl.
    + assert (Hat : String.eqb (Token.type k) "attrs" = false).
      { apply String.eqb_eq in Hcl. rewrite Hcl. reflexivity. }
      rewrite Hat.
      mrun. rewrite ?Hid. mrun. cbn [first_duplicate]. unfold push.
      rewrite HA. mrun.
      rewrite app_nil_r.
      eexists _, _, _, _. split; [reflexivity |].
      rewrite get_set_same. rewrite get_set_other by discriminate.
      repeat split; eauto.
      intros x Ha Hb Hc. apply get_set_other; assumption.
    + mrun.
      destruct (String.eqb (Token.type k) "attrs") eqn:Hat.
      * apply String.eqb_eq in Hat. specialize (Hwf Hat).
        destruct (Token.attrs k) as [l |] eqn:Hl; [| contradiction].
        pose proof (for_each_tag_attr l
          (if truthy (Token.selfClosing k)
           then set "selfClosing" (VBool true) tag else tag)
          names oldA) as Hfor.
        assert (HA' : get "attrs"
                        (if truthy (Token.selfClosing k)
                         then set "selfClosing" (VBool true) tag else tag)
                      = VArr oldA).
        { destruct (truthy _); [| exact HA].
          rewrite get_set_other by discriminate. exact HA. }
        assert (Hpres : forall x, x <> "attrs" -> x <> "attributeBlocks" ->
                     x <> "selfClosing" ->
                     get x (if truthy (Token.selfClosing k)
                            then set "selfClosing" (VBool true) tag else tag)
                     = get x tag).
        { intros x _ _ Hc. destruct (truthy _); [| reflexivity].
          apply get_set_other; assumption. }
        assert (HB' : get "attributeBlocks"
                        (if truthy (Token.selfClosing k)
                         then set "selfClosing" (VBool true) tag else tag)
                      = VArr oldB).
        { destruct (truthy _); [| exact HB].
          rewrite get_set_other by discriminate. exact HB. }
        destruct (first_duplicate names _) as [x |] eqn:Hfd.
        -- destruct seen; mrun; rewrite Hl; mrun; unfold bind at 1;
             rewrite (Hfor _ HA'); reflexivity.
        -- destruct seen; mrun; rewrite Hl; mrun; unfold bind at 1;
             match goal with
             | |- context [for_each tag_attr l _ ?q] =>
                 destruct (Hfor q HA') as (t' & H1 & H2 & H3)
             end;
             rewrite H1; mrun;
             (eexists _, _, _, _; split; [reflexivity |];
              split; [exact H2 |]; split;
              [ rewrite H3 by discriminate; exact HB'
              | intros x Ha Hb Hc; rewrite H3 by assumption; auto ]).
      * mrun. cbn [first_duplicate]. unfold push. rewrite HB. mrun.
        rewrite !app_nil_r.
        eexists _, _, _, _. split; [reflexivity |].
        rewrite get_set_same. rewrite get_set_other by discriminate.
        repeat split; eauto.
        intros x Ha Hb Hc. apply get_set_other; assumption.
Qed.

Lemma attribute_loop_test k r ln fn im con :
  (k0 <- peek ;; ret (is_attribute_token k0))
    (mkParser (mkTokenStream (k :: r) ln) fn im con)
  = Ok (is_attribute_token k) (mkParser (mkTokenStream (k :: r) ln) fn im con).
Proof. reflexivity. Qed.

(** The [(attrs | class | id)*] loop of [tag] over a run of tokens. *)
Lemma tag_attributes_run (run : list Token.t) :
  forall n tag seen names oldA oldB rest ln fn im con,
    Forall attribute_token run ->
    length run < n ->
    get "attrs" tag = VArr oldA ->
    get "attributeBlocks" tag = VArr oldB ->
    match first_duplicate names (attribute_names run) with
    | Some x =>
        while n (k <- peek ;; ret (is_attribute_token k)) tag_attributes
          (tag, seen, names)
          (mkParser (mkTokenStream (run ++ rest) ln) fn im con)
        = Throw (duplicate_error x)
    | None =>
        (exists k r, rest = k :: r /\ is_attribute_token k = false) ->
        exists tag' seen' p',
          while n (k <- peek ;; ret (is_attribute_token k)) tag_attributes
            (tag, seen, names)
            (mkParser (mkTokenStream (run ++ rest) ln) fn im con)
          = Ok (tag', seen', names ++ attribute_names run) p'
          /\ _tokens (tokens p') = rest
          /\ filename p' = fn /\ inMixin p' = im
          /\ get "attrs" tag' = VArr (oldA ++ flat_map attr_entries run)
          /\ (forall k, k <> "attrs" -> k <> "attributeBlocks" ->
                        k <> "selfClosing" -> get k tag' = get k tag)
    end.
Proof.
  induction run as [| k run IH];
    intros n tag seen names oldA oldB rest ln fn im con Hrun Hn HA HB.
  - simpl. intros (k & r & -> & Hk).
    destruct n as [| n]; [inversion Hn |].
    rewrite while_exit
      by (rewrite attribute_loop_test, Hk; reflexivity).
    eexists tag, seen, _. rewrite !app_nil_r. repeat split; auto.
  - destruct n as [| n]; [inversion Hn |]. simpl in Hn.
    apply PeanoNat.lt_S_n in Hn.
    inversion Hrun as [| ? ? Hk Hrun']; subst.
    pose proof (tag_attributes_token k (run ++ rest) tag seen names
                  oldA oldB ln fn im con Hk HA HB) as Hstep.
    unfold attribute_names. cbn [flat_map]. fold (attribute_names run).
    rewrite first_duplicate_app.
    assert (Hc : (k0 <- peek ;; ret (is_attribute_token k0))
                   (mkParser (mkTokenStream ((k :: run) ++ rest) ln) fn im con)
                 = Ok true
                     (mkParser (mkTokenStream ((k :: run) ++ rest) ln)
                               fn im con)).
    { cbn [app]. rewrite attribute_loop_test. destruct Hk as [-> _].
      reflexivity. }
    destruct (first_duplicate names (checked_names k)) as [x |].
    + apply while_step_throw; assumption.
    + destruct Hstep as (t1 & s1 & c1 & b1 & H1 & H2 & H3 & H4).
      specialize (IH n t1 s1 (names ++ checked_names k) _ b1 rest
                     (lineno_after k ln) fn im c1 Hrun' Hn H2 H3).
      rewrite (while_step _ _ _ _ _ _ _ Hc H1).
      destruct (first_duplicate (names ++ checked_names k) _) as [x |].
      * exact IH.
      * intros Hrest.
        destruct (IH Hrest) as (t' & s' & p' & E1 & E2 & E3 & E4 & E5 & E6).
        exists t', s', p'. rewrite E1, E5, <- !app_assoc.
        repeat split; auto.
        intros x Ha Hb Hc'. rewrite E6 by assumption. auto.
Qed.

(** ** Raw HTML *)

Lemma append_assoc (a b c : string) : ((a ++ b) ++ c = a ++ (b ++ c))%string.
Proof. induction a as [| x a IH]; simpl; [| rewrite IH]; reflexivity. Qed.

Lemma html_add_run ts :
  forall text line,
    fold_left html_add ts (Some (text, line))
    = Some (String.concat nl (text :: map Token.val ts), line).
Proof.
  induction ts as [| t ts IH]; intros text line; [reflexivity |].
  cbn [fold_left html_add map]. rewrite IH.
  cbn [String.concat map]. destruct (map Token.val ts) as [| v vs] eqn:E.
  - reflexivity.
  - rewrite append_assoc. reflexivity.
Qed.

(** One turn of the loop on a text-html token whose successor is neither an
    indent nor a newline. *)
Lemma parseTextHtml_step_plain (blk : M obj) t k r c ln fn im con :
  Token.type k <> "indent" -> Token.type k <> "newline" ->
  parseTextHtml_step blk (html_state fn c)
    (mkParser (mkTokenStream (t :: k :: r) ln) fn im con)
  = Ok (html_state fn (html_add c t))
       (mkParser (mkTokenStream (k :: r) (lineno_after t ln)) fn im con).
Proof.
  intros H1 H2. apply String.eqb_neq in H1, H2.
  unfold parseTextHtml_step.
  destruct c as [[text line] |]; cbn [html_state html_add]; mrun;
    rewrite H1, H2; reflexivity.
Qed.

(** The same turn with a newline behind the token. *)
Lemma parseTextHtml_step_newline (blk : M obj) t k r c ln fn im con :
  Token.type k = "newline" ->
  parseTextHtml_step blk (html_state fn c)
    (mkParser (mkTokenStream (t :: k :: r) ln) fn im con)
  = Ok (html_state fn (html_add c t))
       (mkParser (mkTokenStream r (lineno_after k (lineno_after t ln)))
                 fn im con).
Proof.
  intros H.
  unfold parseTextHtml_step.
  destruct c as [[text line] |]; cbn [html_state html_add]; mrun;
    rewrite H; reflexivity.
Qed.

Lemma parseTextHtml_run (blk : M obj) (ts : list Token.t) :
  forall t n c rest ln fn im con,
    Forall (fun k => Token.type k = "text-html") (t :: ts) ->
    html_run_ends rest ->
    length (t :: ts) < n ->
    exists p',
      while n (peek_is "text-html") (parseTextHtml_step blk)
        (html_state fn c)
        (mkParser (mkTokenStream ((t :: ts) ++ rest) ln) fn im con)
      = Ok (html_state fn (fold_left html_add (t :: ts) c)) p'
      /\ _tokens (tokens p') = after_html_run rest
      /\ filename p' = fn.
Proof.
  induction ts as [| t' ts IH]; intros t n c rest ln fn im con Hts Hend Hn.
  - destruct n as [| [| n]]; [inversion Hn | | ].
    { simpl in Hn. lia. }
    inversion Hts as [| ? ? Ht _]; subst.
    destruct rest as [| k r]; [contradiction |].
    destruct Hend as (H1 & H2 & H3).
    cbn [app fold_left].
    assert (Hc : peek_is "text-html"
                   (mkParser (mkTokenStream (t :: k :: r) ln) fn im con)
                 = Ok true (mkParser (mkTokenStream (t :: k :: r) ln)
                                     fn im con)).
    { rewrite peek_is_cons, Ht. reflexivity. }
    destruct (String.eqb (Token.type k) "newline") eqn:Hnl.
    + apply String.eqb_eq in Hnl.
      rewrite (while_step _ _ _ _ _ _ _ Hc
                 (parseTextHtml_step_newline blk t k r c ln fn im con Hnl)).
      specialize (H3 Hnl). destruct r as [| k1 r1]; [contradiction |].
      rewrite while_exit.
      * eexists. split; [reflexivity |]. cbn [after_html_run].
        rewrite Hnl. split; reflexivity.
      * rewrite peek_is_cons. apply String.eqb_neq in H3. rewrite H3.
        reflexivity.
    + pose proof Hnl as Hnl'. apply String.eqb_neq in Hnl'.
      rewrite (while_step _ _ _ _ _ _ _ Hc
                 (parseTextHtml_step_plain blk t k r c ln fn im con H2 Hnl')).
      rewrite while_exit.
      * eexists. split; [reflexivity |]. cbn [after_html_run].
        rewrite Hnl. split; reflexivity.
      * rewrite peek_is_cons. apply String.eqb_neq in H1. rewrite H1.
        reflexivity.
  - destruct n as [| n]; [inversion Hn |].
    inversion Hts as [| ? ? Ht Hts']; subst.
    assert (Ht' : Token.type t' = "text-html")
      by (inversion Hts'; assumption).
    cbn [app].
    assert (Hc : peek_is "text-html"
                   (mkParser (mkTokenStream (t :: t' :: ts ++ rest) ln)
                             fn im con)
                 = Ok true (mkParser (mkTokenStream (t :: t' :: ts ++ rest) ln)
                                     fn im con)).
    { rewrite peek_is_cons, Ht. reflexivity. }
    rewrite (while_step _ _ _ _ _ _ _ Hc
               (parseTextHtml_step_plain blk t t' (ts ++ rest) c ln fn im con
                  ltac:(rewrite Ht'; discriminate)
                  ltac:(rewrite Ht'; discriminate))).
    cbn [fold_left].
    apply (IH t' n (html_add c t) rest _ fn im con Hts' Hend).
    simpl in Hn |- *. lia.
Qed.

(** C8: a run of consecutive text-html tokens becomes one Text node, marked
    isHtml, whose value is the tokens' values joined by newlines and whose
    line is that of the first token; a newline behind the run is consumed
    with it.  The sequence text-html 'a', text-html 'b', newline gives the
    one node with value a, newline, b. *)
Theorem text_html_tokens_are_merged :
  forall (n : nat) (blk : M obj) (p : Parser)
         (t : Token.t) (ts rest : list Token.t),
    _tokens (tokens p) = (t :: ts) ++ rest ->
    Forall (fun k => Token.type k = "text-html") (t :: ts) ->
    html_run_ends rest ->
    length (t :: ts) < n ->
    (exists p',
        parseTextHtml n blk p
        = Ok [html_text (String.concat nl (map Token.val (t :: ts)))
                        (filename p) (Token.line t)] p'
        /\ _tokens (tokens p') = after_html_run rest)
    /\ (forall fname : string,
           parse two_html_lines (VStr fname)
           = Returns
               (VObj [("type", VStr "Block");
                      ("nodes",
                       VArr [html_text ("a" ++ nl ++ "b") (VStr fname)
                                       (VNum 1)]);
                      ("line", VNum 0);
                      ("filename", VStr fname)])).
Proof.
  intros n blk p t ts rest Hp Hts Hend Hn.
  split.
  - destruct_parser p.
    destruct (parseTextHtml_run blk ts t n None rest ln filename0 inMixin0
                console0 Hts Hend Hn) as (p' & H1 & H2 & H3).
    exists p'. split; [| exact H2].
    unfold parseTextHtml, bind. cbn [html_state app] in H1. rewrite H1.
    cbn [fold_left html_add]. rewrite html_add_run. reflexivity.
  - intros fname. reflexivity.
Qed.

(** ** JSON *)

(** Induction over values, through arrays and objects. *)
Lemma value_induction (P : value -> Prop) :
  P VUndef -> P VNull -> (forall b, P (VBool b)) -> (forall z, P (VNum z)) ->
  (forall s, P (VStr s)) ->
  (forall l, Forall P l -> P (VArr l)) ->
  (forall o, Forall (fun kv => P (snd kv)) o -> P (VObj o)) ->
  forall v, P v.
Proof.
  intros HU HN HB HZ HS HA HO.
  fix IH 1. intros [| | b | z | s | l | o].
  - exact HU.
  - exact HN.
  - apply HB.
  - apply HZ.
  - apply HS.
  - apply HA. induction l as [| x l IHl]; constructor; [apply IH | exact IHl].
  - apply HO. induction o as [| [k x] o IHo]; constructor;
      [apply IH | exact IHo].
Qed.

Lemma json_clone_is_data (v : value) :
  v <> VUndef -> json_data (json_clone v) = true.
Proof.
  induction v as [| | b | z | s | l IH | o IH] using value_induction;
    intros Hv; try reflexivity.
  - contradiction.
  - cbn [json_clone json_data]. unfold clone_items.
    induction l as [| x l IHl]; [reflexivity |].
    inversion IH as [| ? ? Hx Hl]; subst.
    cbn [map forallb]. rewrite (IHl Hl) by discriminate.
    rewrite andb_true_r.
    destruct x; try reflexivity; apply Hx; discriminate.
  - cbn [json_clone json_data].
    induction o as [| [k x] o IHo]; [reflexivity |].
    inversion IH as [| ? ? Hx Ho]; subst. cbn [snd] in Hx.
    specialize (IHo Ho ltac:(discriminate)).
    destruct x; cbn [clone_props forallb snd]; rewrite ?IHo, ?andb_true_r;
      try reflexivity; apply Hx; discriminate.
Qed.

Lemma json_clone_of_data (v : value) :
  json_data v = true -> json_clone v = v.
Proof.
  induction v as [| | b | z | s | l IH | o IH] using value_induction;
    intros Hv; try reflexivity.
  - cbn [json_clone]. f_equal. cbn [json_data] in Hv. unfold clone_items.
    induction l as [| x l IHl]; [reflexivity |].
    inversion IH as [| ? ? Hx Hl]; subst.
    cbn [forallb] in Hv. apply andb_true_iff in Hv. destruct Hv as [Hv1 Hv2].
    cbn [map]. rewrite (IHl Hl Hv2). f_equal.
    destruct x; try reflexivity; try discriminate; apply Hx; exact Hv1.
  - cbn [json_clone]. f_equal. cbn [json_data] in Hv.
    induction o as [| [k x] o IHo]; [reflexivity |].
    inversion IH as [| ? ? Hx Ho]; subst. cbn [snd] in Hx.
    cbn [forallb snd] in Hv.
    apply andb_true_iff in Hv. destruct Hv as [Hv1 Hv2].
    specialize (IHo Ho Hv2).
    destruct x; try discriminate; cbn [clone_props]; rewrite IHo;
      try reflexivity; rewrite (Hx Hv1); reflexivity.
Qed.

(** What [Parser.prototype.parse] returns. *)
Lemma Parser_parse_root fuel p ast p' :
  Parser_parse fuel p = Ok ast p' ->
  exists nodes,
    ast = [("type", VStr "Block"); ("nodes", VArr nodes); ("line", VNum 0);
           ("filename", filename p)].
Proof.
  unfold Parser_parse, parse_body. intros H.
  apply bind_Ok in H. destruct H as (fn & p1 & H1 & H).
  unfold this_filename in H1. inversion H1; subst fn p1; clear H1.
  apply bind_Ok in H. destruct H as (nodes & p2 & _ & H).
  inversion H. exists nodes. reflexivity.
Qed.

(** C10: when [parse] returns, it returns one root Block with line 0 and
    the given file name, made of data that JSON carries (values are trees of
    strings, numbers, booleans, null, arrays and objects, with no
    [undefined] left in them), and cloning the result through JSON once more
    gives the result itself. *)
Theorem parse_returns_plain_data :
  forall (toks : list Token.t) (fname : string) (ast : value),
    parse toks (VStr fname) = Returns ast ->
    (exists nodes,
        ast = VObj [("type", VStr "Block"); ("nodes", VArr nodes);
                    ("line", VNum 0); ("filename", VStr fname)])
    /\ json_data ast = true
    /\ json_clone ast = ast.
Proof.
  intros toks fname ast H.
  unfold parse, parse_with in H.
  destruct (Parser_parse _ _) as [o p' | e |] eqn:E; try discriminate.
  inversion H; subst ast; clear H.
  destruct (Parser_parse_root _ _ _ _ E) as (nodes & ->).
  assert (Hd : json_data
                 (json_clone
                    (VObj [("type", VStr "Block"); ("nodes", VArr nodes);
                           ("line", VNum 0);
                           ("filename", filename (new_Parser toks (VStr fname)))]))
               = true)
    by (apply json_clone_is_data; discriminate).
  split; [| split].
  - eexists. cbn [new_Parser filename json_clone]. reflexivity.
  - exact Hd.
  - apply json_clone_of_data. exact Hd.
Qed.

(** ** What the methods return *)

Lemma returns_ret {A} (a : A) (Q : A -> Prop) : Q a -> returns (ret a) Q.
Proof. intros H p a' p' E. inversion E; subst. exact H. Qed.

Lemma returns_throw {A} k msg (Q : A -> Prop) : returns (throw k msg) Q.
Proof. intros p a p' E. discriminate. Qed.

Lemma returns_bind {A B} (m : M A) (f : A -> M B) (R : A -> Prop)
      (Q : B -> Prop) :
  returns m R -> (forall a, R a -> returns (f a) Q) -> returns (bind m f) Q.
Proof.
  intros Hm Hf p b p' E. apply bind_Ok in E.
  destruct E as (a & p1 & E1 & E2).
  exact (Hf a (Hm _ _ _ E1) _ _ _ E2).
Qed.

Lemma returns_any {A} (m : M A) : returns m (fun _ => True).
Proof. intros p a p' _. exact I. Qed.

Lemma returns_then {A B} (m : M A) (f : A -> M B) (Q : B -> Prop) :
  (forall a, returns (f a) Q) -> returns (bind m f) Q.
Proof.
  intros Hf. apply returns_bind with (R := fun _ => True).
  - apply returns_any.
  - intros a _. apply Hf.
Qed.

Lemma returns_weaken {A} (m : M A) (Q Q' : A -> Prop) :
  returns m Q -> (forall a, Q a -> Q' a) -> returns m Q'.
Proof. intros H HQ p a p' E. apply HQ. exact (H _ _ _ E). Qed.

Lemma returns_while {A} n (cond : M bool) (body : A -> M A)
      (Inv : A -> Prop) :
  (forall a, Inv a -> returns (body a) Inv) ->
  forall a, Inv a -> returns (while n cond body a) Inv.
Proof.
  intros Hbody. induction n as [| n IH]; intros a Ha.
  - intros p a' p' E. discriminate.
  - rewrite while_S. apply returns_then. intros [|].
    + apply returns_bind with (R := Inv); [apply Hbody; exact Ha |].
      intros a' Ha'. apply IH. exact Ha'.
    + apply returns_ret. exact Ha.
Qed.

Lemma returns_for_each {A B} (body : B -> A -> M A) (Inv : A -> Prop)
      (P : B -> Prop) :
  (forall x a, P x -> Inv a -> returns (body x a) Inv) ->
  forall l a, Forall P l -> Inv a -> returns (for_each body l a) Inv.
Proof.
  intros Hbody. induction l as [| x l IH]; intros a Hl Ha.
  - apply returns_ret. exact Ha.
  - inversion Hl; subst. cbn [for_each].
    apply returns_bind with (R := Inv); [apply Hbody; assumption |].
    intros a' Ha'. apply IH; assumption.
Qed.

(** *** Well-formed trees *)

Ltac in_types :=
  cbn [In node_types]; repeat (first [left; reflexivity | right]).

Ltac data_field := apply Field_data; [reflexivity | discriminate].

(** The fields of an object literal: the data fields are settled, the
    others are left. *)
Ltac obj_fields :=
  repeat first [ apply Forall_nil | apply Forall_cons; [ try data_field | ] ].

Lemma get_in k o v : get k o = v -> v <> VUndef -> In (k, v) o.
Proof.
  induction o as [| [k' v'] r IH]; cbn [get]; intros H Hv.
  - congruence.
  - destruct (String.eqb_spec k k').
    + subst. left. reflexivity.
    + right. apply IH; assumption.
Qed.

Lemma fields_set k v o :
  Forall Field o -> Field (k, v) -> Forall Field (set k v o).
Proof.
  intros Ho Hv. induction Ho as [| [k' v'] r Hx Hr IH]; cbn [set].
  - constructor; [exact Hv | constructor].
  - destruct (String.eqb k k'); constructor; assumption.
Qed.

Lemma fields_del k o : Forall Field o -> Forall Field (del k o).
Proof.
  intros Ho. induction Ho as [| [k' v'] r Hx Hr IH]; cbn [del].
  - constructor.
  - destruct (String.eqb k k'); [assumption | constructor; assumption].
Qed.

Lemma node_set k v o :
  node o -> k <> "type" -> Field (k, v) -> node (set k v o).
Proof.
  intros Ho Hk Hv. inversion Ho as [o' t Ht Hin Hf]; subst.
  apply Node_object with (t := t).
  - rewrite get_set_other by congruence. exact Ht.
  - exact Hin.
  - apply fields_set; assumption.
Qed.

Lemma node_del k o : node o -> k <> "type" -> node (del k o).
Proof.
  intros Ho Hk. inversion Ho as [o' t Ht Hin Hf]; subst.
  apply Node_object with (t := t).
  - rewrite get_del_other by congruence. exact Ht.
  - exact Hin.
  - apply fields_del; assumption.
Qed.

Lemma node_set_type t o :
  node o -> In t node_types -> node (set "type" (VStr t) o).
Proof.
  intros Ho Hin. inversion Ho as [o' t' Ht _ Hf]; subst.
  apply Node_object with (t := t).
  - apply get_set_same.
  - exact Hin.
  - apply fields_set; [exact Hf | data_field].
Qed.

Lemma node_child k o b :
  node o -> child_key k = true -> get k o = VObj b -> node b.
Proof.
  intros Ho Hk Hg. inversion Ho as [o' t _ _ Hf]; subst.
  apply get_in in Hg; [| discriminate].
  rewrite Forall_forall in Hf. specialize (Hf _ Hg).
  inversion Hf; subst; [congruence | assumption].
Qed.

Lemma node_nodes o l : node o -> get "nodes" o = VArr l -> Forall Node l.
Proof.
  intros Ho Hg. inversion Ho as [o' t _ _ Hf]; subst.
  apply get_in in Hg; [| discriminate].
  rewrite Forall_forall in Hf. specialize (Hf _ Hg).
  inversion Hf as [? ? ? Hk | | | ? ? Hn | ]; subst;
    [congruence | inversion Hn | assumption].
Qed.

Lemma node_truthy_child k o :
  node o -> child_key k = true -> truthy (get k o) = true -> Node (get k o).
Proof.
  intros Ho Hk Ht. inversion Ho as [o' t _ _ Hf]; subst.
  assert (Hin : In (k, get k o) o).
  { apply get_in; [reflexivity |]. intros E. rewrite E in Ht. discriminate. }
  rewrite Forall_forall in Hf. specialize (Hf _ Hin).
  inversion Hf; subst;
    try congruence; try assumption; try discriminate;
    match goal with
    | E : _ = get k o |- _ => rewrite <- E in Ht; discriminate
    end.
Qed.

Lemma nodes_append_val i s l :
  Forall Node l -> Forall Node (append_val i s l).
Proof.
  intros Hl. revert i. induction Hl as [| x r Hx Hr IH]; intros i.
  - destruct i; constructor.
  - destruct i as [| i]; cbn [append_val].
    + destruct x; constructor; try assumption.
      apply node_set; [exact Hx | discriminate | data_field].
    + destruct x; constructor; try assumption; apply IH.
Qed.

Lemma node_empty_block : node empty_block.
Proof.
  apply Node_object with (t := "Block"); [reflexivity | in_types |].
  obj_fields. apply Field_nodes. constructor.
Qed.

Lemma node_text s : node (text_node s).
Proof.
  apply Node_object with (t := "Text"); [reflexivity | in_types |].
  obj_fields.
Qed.

Lemma node_block_of l : Forall Node l -> node (block_of l).
Proof.
  intros Hl.
  apply Node_object with (t := "Block"); [reflexivity | in_types |].
  obj_fields. apply Field_nodes. exact Hl.
Qed.

Ltac rstep :=
  lazymatch goal with
  | |- returns (ret _) _ => apply returns_ret
  | |- returns (throw _ _) _ => apply returns_throw
  | |- returns type_error _ => apply returns_throw
  | |- returns (duplicate_attribute _) _ => apply returns_throw
  | |- returns (bind _ _) _ => apply returns_then; intros ?
  | |- returns (if ?b then _ else _) _ => destruct b
  | |- returns (match ?o with _ => _ end) _ => destruct o
  end.

Ltac rbind H :=
  eapply returns_bind; [apply H | intros ? ?; cbv beta in * ].

Ltac node_literal ty :=
  apply (Node_object _ ty); [reflexivity | in_types | obj_fields].

Lemma nodes_app l1 l2 : Forall Node l1 -> Forall Node l2 -> Forall Node (l1 ++ l2).
Proof. intros H1 H2. apply Forall_app. split; assumption. Qed.

Lemma nodes_snoc l o : Forall Node l -> node o -> Forall Node (l ++ [VObj o]).
Proof. intros H1 H2. apply nodes_app; [exact H1 | repeat constructor; exact H2]. Qed.

Lemma elems_nodes o :
  node o -> returns (elems (get "nodes" o)) (Forall Node).
Proof.
  intros Ho p l p' E. unfold elems in E.
  destruct (get "nodes" o) eqn:G; try discriminate.
  inversion E; subst. eapply node_nodes; eassumption.
Qed.

Lemma as_obj_returns v : returns (as_obj v) (fun b => v = VObj b).
Proof.
  intros p b p' E. destruct v; try discriminate. inversion E. reflexivity.
Qed.

Lemma elems_returns v : returns (elems v) (fun l => v = VArr l).
Proof.
  intros p b p' E. destruct v; try discriminate. inversion E. reflexivity.
Qed.

Lemma push_block_node_node x o :
  Node x -> node o -> returns (push_block_node x o) node.
Proof.
  intros Hx Ho. unfold push_block_node, push.
  rbind as_obj_returns.
  assert (Hb : node a) by (apply (node_child "block" o a Ho eq_refl H)).
  eapply returns_bind with (R := node).
  - rbind elems_returns. rstep.
    apply node_set; [exact Hb | discriminate |].
    apply Field_nodes. apply nodes_app.
    + eapply node_nodes; eassumption.
    + repeat constructor. exact Hx.
  - intros b' Hb'. rstep.
    apply node_set; [exact Ho | discriminate |].
    apply Field_node. exact Hb'.
Qed.

Lemma push_data k x o :
  child_key k = false -> k <> "nodes" -> k <> "type" ->
  node o -> returns (push k x o) node.
Proof.
  intros H1 H2 H3 Ho. unfold push. rstep. rstep.
  apply node_set; [exact Ho | exact H3 | apply Field_data; assumption].
Qed.

Section WellFormed.

Variable n : nat.
Variables pe blk : M obj.
Hypothesis pe_node : returns pe node.
Hypothesis blk_node : returns blk node.

Lemma parseText_node b : returns (parseText n pe b) node.
Proof.
  unfold parseText.
  eapply returns_bind with (R := Forall node).
  - apply returns_while; [| constructor].
    intros tags Htags. rstep. rstep.
    + repeat rstep. apply Forall_app. split; [exact Htags |].
      repeat constructor. apply node_text.
    + rstep.
      * repeat rstep; [| exact Htags].
        apply Forall_app. split; [exact Htags |].
        repeat constructor. apply node_text.
      * rstep. rbind pe_node. repeat rstep.
        apply Forall_app. split; [exact Htags |]. repeat constructor.
        assumption.
  - intros tags Htags.
    destruct tags as [| t [| t' r]]; rstep.
    + apply node_block_of. constructor.
    + inversion Htags; assumption.
    + apply node_block_of. rewrite Forall_map. exact Htags.
Qed.

Lemma merge_html_nodes l :
  Forall Node l ->
  forall st, Forall Node (fst st) -> Forall Node (fst (fold_left merge_html l st)).
Proof.
  induction 1 as [| x l Hx Hl IH]; intros [nodes cur] Hst; [exact Hst |].
  cbn [fold_left]. apply IH. unfold merge_html.
  destruct (truthy (prop "isHtml" x)).
  - destruct cur; cbn [fst] in *.
    + apply nodes_append_val. exact Hst.
    + apply nodes_app; [exact Hst | repeat constructor; exact Hx].
  - cbn [fst] in *. apply nodes_app; [exact Hst | repeat constructor; exact Hx].
Qed.

Lemma parseTextHtml_step_nodes st :
  Forall Node (fst st) ->
  returns (parseTextHtml_step blk st) (fun st' => Forall Node (fst st')).
Proof.
  intros Hst. destruct st as [nodes cur]. cbn [fst] in Hst.
  unfold parseTextHtml_step. rstep. rstep.
  match goal with
  | |- returns (bind peek (fun k => @?f k)) _ => idtac
  | _ => idtac
  end.
  assert (Hst' : Forall Node
            (fst match cur with
                 | Some i => (append_val i (nl ++ Token.val a) nodes, Some i)
                 | None =>
                     (nodes ++ [VObj [("type", VStr "Text");
                                      ("val", VStr (Token.val a));
                                      ("filename", a0);
                                      ("line", Token.line a);
                                      ("isHtml", VBool true)]],
                      Some (length nodes))
                 end)).
  { destruct cur; cbn [fst].
    - apply nodes_append_val. exact Hst.
    - apply nodes_app; [exact Hst |]. repeat constructor.
      node_literal "Text". }
  rstep. rstep.
  - rbind blk_node. eapply returns_bind; [apply elems_nodes; eassumption |].
    intros l Hl. rstep. apply merge_html_nodes; assumption.
  - rstep; repeat rstep; exact Hst'.
Qed.

Lemma parseTextHtml_nodes : returns (parseTextHtml n blk) (Forall Node).
Proof.
  unfold parseTextHtml.
  eapply returns_bind with (R := fun st => Forall Node (fst st)).
  - apply returns_while; [| constructor].
    intros st Hst. apply parseTextHtml_step_nodes. exact Hst.
  - intros st Hst. rstep. exact Hst.
Qed.

Lemma parseBlockExpansion_node : returns (parseBlockExpansion pe blk) node.
Proof.
  unfold parseBlockExpansion. rstep. rstep; [| exact blk_node].
  rstep. rbind pe_node. rstep.
  apply node_block_of. repeat constructor. assumption.
Qed.

Lemma parseWhen_node : returns (parseWhen pe blk) node.
Proof.
  unfold parseWhen. rstep. rstep. rstep.
  - rbind parseBlockExpansion_node. rstep.
    node_literal "When". apply Field_node. assumption.
  - rstep. node_literal "When".
Qed.

Lemma parseDefault_node : returns (parseDefault pe blk) node.
Proof.
  unfold parseDefault. rstep. rbind parseBlockExpansion_node. rstep.
  node_literal "When". apply Field_node. assumption.
Qed.

Lemma parseCase_node : returns (parseCase n pe blk) node.
Proof.
  unfold parseCase. rstep. rstep. rstep.
  eapply returns_bind with (R := Forall Node).
  - apply returns_while; [| constructor].
    intros nodes Hnodes. rstep. rstep; [repeat rstep; exact Hnodes |].
    rstep; [rbind parseWhen_node; rstep; apply nodes_snoc; assumption |].
    rstep; [rbind parseDefault_node; rstep; apply nodes_snoc; assumption |].
    rstep.
  - intros nodes Hnodes. rstep. rstep.
    apply node_set; [node_literal "Case" | discriminate |].
    apply Field_node. node_literal "Block". apply Field_nodes. exact Hnodes.
Qed.

Lemma parseCode_node : returns (parseCode blk) node.
Proof.
  unfold parseCode. rstep. rstep. rstep; [rstep |].
  rstep.
  assert (H0 : node
            (set "line" a0
               (if match_else (Token.val a)
                then set "debug" (VBool false)
                       [("type", VStr "Code"); ("val", VStr (Token.val a));
                        ("buffer", Token.buffer a);
                        ("escape", Token.escape a)]
                else [("type", VStr "Code"); ("val", VStr (Token.val a));
                      ("buffer", Token.buffer a);
                      ("escape", Token.escape a)]))).
  { apply node_set; [| discriminate | data_field].
    destruct (match_else _).
    - apply node_set; [node_literal "Code" | discriminate | data_field].
    - node_literal "Code". }
  eapply returns_bind with (R := node).
  - rstep; [| rstep; exact H0].
    rbind blk_node. rstep.
    apply node_set; [exact H0 | discriminate | apply Field_node; assumption].
  - intros nd Hnd. rstep. rstep.
    destruct (Token.requiresBlock a && negb a1); [| exact Hnd].
    apply node_set; [exact Hnd | discriminate |].
    apply Field_node. apply node_empty_block.
Qed.

Lemma parseDoctype_node : returns parseDoctype node.
Proof. unfold parseDoctype. rstep. rstep. node_literal "Doctype". Qed.

Lemma parseExtends_node : returns parseExtends node.
Proof. unfold parseExtends. rstep. rstep. node_literal "Extends". Qed.

Lemma parseMixinBlock_node : returns parseMixinBlock node.
Proof.
  unfold parseMixinBlock. rstep. rstep. rstep; rstep.
  node_literal "MixinBlock".
Qed.

Lemma parseTextBlock_node :
  returns (parseTextBlock n pe)
          (fun b => match b with Some o => node o | None => True end).
Proof.
  unfold parseTextBlock. rstep. rstep; [rstep; exact I |].
  rstep.
  eapply returns_bind with (R := Forall Node).
  - apply returns_while; [| constructor].
    intros nodes Hnodes. rstep.
    rstep; [rstep; apply nodes_snoc; [exact Hnodes | apply node_text] |].
    rstep; [rstep; apply nodes_snoc; [exact Hnodes | apply node_text] |].
    rstep; [| rstep].
    rbind pe_node. rstep. rstep. apply nodes_snoc; assumption.
  - intros nodes Hnodes. rstep. rstep. apply node_block_of. exact Hnodes.
Qed.

Lemma parseComment_node : returns (parseComment n pe) node.
Proof.
  unfold parseComment. rstep. rbind parseTextBlock_node.
  rstep; rstep.
  - node_literal "BlockComment". apply Field_node. assumption.
  - node_literal "Comment".
Qed.

Lemma parseFilter_node : returns (parseFilter n pe) node.
Proof.
  unfold parseFilter. rstep. rstep. rbind parseTextBlock_node. rstep.
  node_literal "Filter". apply Field_node.
  destruct a1; [assumption | apply node_empty_block].
Qed.

Lemma parseEach_node : returns (parseEach blk) node.
Proof.
  unfold parseEach. rstep. rbind blk_node. rstep.
  assert (H0 : node [("type", VStr "Each"); ("obj", Token.code a);
                     ("val", VStr (Token.val a)); ("key", Token.key a);
                     ("block", VObj a0); ("line", Token.line a)]).
  { node_literal "Each". apply Field_node. assumption. }
  rstep; [| rstep; exact H0].
  rstep. rbind blk_node. rstep.
  apply node_set; [exact H0 | discriminate | apply Field_node; assumption].
Qed.

Lemma parseBlock_node : returns (parseBlock blk) node.
Proof.
  unfold parseBlock. rstep. rstep.
  eapply returns_bind with (R := node).
  - rstep; [exact blk_node | rstep; apply node_empty_block].
  - intros nd Hnd. rstep.
    apply node_set; [| discriminate | data_field].
    apply node_set; [| discriminate | data_field].
    apply node_set; [| discriminate | data_field].
    apply node_set_type; [exact Hnd | in_types].
Qed.

Lemma parseInclude_node : returns (parseInclude blk) node.
Proof.
  unfold parseInclude. rstep. rstep.
  eapply returns_bind with (R := node).
  - rstep; [exact blk_node | rstep; apply node_empty_block].
  - intros nd Hnd. rstep. node_literal "Include". apply Field_node. exact Hnd.
Qed.

Lemma parseMixin_node : returns (parseMixin blk) node.
Proof.
  unfold parseMixin. rstep. rstep. rstep.
  - rstep. rbind blk_node. rstep. rstep.
    node_literal "Mixin". apply Field_node. assumption.
  - rstep. rstep. rstep. node_literal "Mixin". apply Field_null.
Qed.

Lemma tag_attr_node a st :
  node (fst st) -> returns (tag_attr a st) (fun st' => node (fst st')).
Proof.
  intros Hst. destruct st as [t names]. cbn [fst] in Hst.
  unfold tag_attr. rstep.
  rbind (push_data "attrs" (Attr.to_value a) t eq_refl
           ltac:(discriminate) ltac:(discriminate) Hst).
  rstep. assumption.
Qed.

Lemma tag_attributes_node st :
  node (fst (fst st)) ->
  returns (tag_attributes st) (fun st' => node (fst (fst st'))).
Proof.
  intros Hst. destruct st as [[t seen] names]. cbn [fst] in Hst.
  unfold tag_attributes. rstep. rstep; [| rstep].
  - rstep. rstep.
    eapply returns_bind;
      [apply (push_data "attrs" _ t eq_refl
                ltac:(discriminate) ltac:(discriminate) Hst) |].
    intros t' Ht'. rstep. exact Ht'.
  - rstep. rstep. rstep.
    eapply returns_bind with (R := fun st' => node (fst st')).
    + apply returns_for_each with (P := fun _ => True).
      * intros x st' _ Hst'. apply tag_attr_node. exact Hst'.
      * apply Forall_forall. intros; exact I.
      * cbn [fst]. destruct (truthy _); [| exact Hst].
        apply node_set; [exact Hst | discriminate | data_field].
    + intros r Hr. rstep. exact Hr.
  - rstep.
    eapply returns_bind;
      [apply (push_data "attributeBlocks" _ t eq_refl
                ltac:(discriminate) ltac:(discriminate) Hst) |].
    intros t' Ht'. rstep. exact Ht'.
Qed.

Lemma tag_node t : node t -> returns (tag n pe blk t) node.
Proof.
  intros Ht. unfold tag. rstep.
  eapply returns_bind with (R := fun st => node (fst (fst st))).
  { apply returns_while.
    - intros st Hst. apply tag_attributes_node. exact Hst.
    - cbn [fst]. apply node_set; [exact Ht | discriminate | data_field]. }
  intros st Hst. rstep.
  eapply returns_bind with (R := node).
  { rstep; [| rstep; exact Hst].
    rstep. rstep. apply node_set; [exact Hst | discriminate | data_field]. }
  intros t1 Ht1. rstep.
  eapply returns_bind with (R := node).
  { rstep.
    - rbind (parseText_node false). apply push_block_node_node; assumption.
    - rstep.
      + rbind parseCode_node. rstep.
        apply node_set; [exact Ht1 | discriminate | apply Field_node; assumption].
      + rstep.
        * rstep. rbind pe_node. rstep.
          apply node_set; [exact Ht1 | discriminate |].
          apply Field_node. apply node_block_of. repeat constructor. assumption.
        * rstep; [rstep; exact Ht1 | rstep]. }
  intros t2 Ht2. rstep. rstep.
  - rbind parseTextBlock_node. rstep.
    apply node_set; [exact Ht2 | discriminate |]. apply Field_node.
    destruct a3; [assumption | apply node_empty_block].
  - rstep. rstep; [| rstep; exact Ht2].
    rbind blk_node.
    eapply returns_bind; [apply elems_nodes; eassumption |].
    intros l Hl.
    apply returns_for_each with (P := Node); [| exact Hl | exact Ht2].
    intros x t' Hx Ht'. apply push_block_node_node; assumption.
Qed.

Lemma parseCall_node : returns (parseCall n pe blk) node.
Proof.
  unfold parseCall. rstep.
  eapply returns_bind; [apply tag_node |].
  { node_literal "Mixin". apply Field_node. apply node_empty_block. }
  intros m Hm.
  eapply returns_bind with (R := node).
  { destruct (truthy (get "code" m)) eqn:Hc; [| rstep; exact Hm].
    assert (Hcode : Node (get "code" m))
      by (apply node_truthy_child; [exact Hm | reflexivity | exact Hc]).
    eapply returns_bind; [apply push_block_node_node; [exact Hcode | exact Hm] |].
    intros m' Hm'. rstep. apply node_del; [exact Hm' | discriminate]. }
  intros m1 Hm1. rstep. rstep. rstep; rstep; [| exact Hm1].
  apply node_set; [exact Hm1 | discriminate | apply Field_null].
Qed.

Lemma parseInterpolation_node : returns (parseInterpolation n pe blk) node.
Proof.
  unfold parseInterpolation. rstep. apply tag_node.
  node_literal "Tag". apply Field_node. apply node_empty_block.
Qed.

Lemma parseTag_node : returns (parseTag n pe blk) node.
Proof.
  unfold parseTag. rstep. apply tag_node.
  node_literal "Tag". apply Field_node. apply node_empty_block.
Qed.

Lemma block_body_node : returns (block_body n pe blk) node.
Proof.
  unfold block_body. rstep. rstep. rstep.
  eapply returns_bind with (R := Forall Node).
  - apply returns_while; [| constructor].
    intros nodes Hnodes. rstep.
    rstep; [repeat rstep; exact Hnodes |].
    rstep.
    + rbind parseTextHtml_nodes. rstep. apply nodes_app; assumption.
    + rbind pe_node. rstep. rstep. apply nodes_snoc; [exact Hnodes |].
      apply node_set; [assumption | discriminate | data_field].
  - intros nodes Hnodes. rstep. rstep.
    node_literal "Block". apply Field_nodes. exact Hnodes.
Qed.

Lemma parseExpr_body_node : returns (parseExpr_body n pe blk) node.
Proof.
  unfold parseExpr_body. rstep. cbv zeta.
  rstep; [apply parseTag_node |].
  rstep; [apply parseMixin_node |].
  rstep; [apply parseBlock_node |].
  rstep; [apply parseMixinBlock_node |].
  rstep; [apply parseCase_node |].
  rstep; [apply parseExtends_node |].
  rstep; [apply parseInclude_node |].
  rstep; [apply parseDoctype_node |].
  rstep; [apply parseFilter_node |].
  rstep; [apply parseComment_node |].
  rstep; [apply parseText_node |].
  rstep; [apply parseEach_node |].
  rstep; [apply parseCode_node |].
  rstep; [apply parseCall_node |].
  rstep; [apply parseInterpolation_node |].
  rstep.
  { rstep. rstep.
    apply node_set; [apply node_empty_block | discriminate | data_field]. }
  rstep; [rstep; exact pe_node | rstep].
Qed.

Lemma parse_body_node : returns (parse_body n pe blk) node.
Proof.
  unfold parse_body. rstep.
  eapply returns_bind with (R := Forall Node).
  - apply returns_while; [| constructor].
    intros nodes Hnodes. rstep.
    rstep; [repeat rstep; exact Hnodes |].
    rstep.
    + rbind parseTextHtml_nodes. rstep. apply nodes_app; assumption.
    + rbind pe_node. rstep. rstep. apply nodes_snoc; [exact Hnodes |].
      apply node_set; [| discriminate | data_field].
      apply node_set; [assumption | discriminate | data_field].
  - intros nodes Hnodes. rstep.
    node_literal "Block". apply Field_nodes. exact Hnodes.
Qed.

End WellFormed.

Lemma parseExpr_block_node fuel :
  returns (parseExpr fuel) node /\ returns (block fuel) node.
Proof.
  induction fuel as [| f [IHe IHb]].
  - split; intros p a p' E; discriminate.
  - split; cbn [parseExpr block].
    + apply parseExpr_body_node; assumption.
    + apply block_body_node; assumption.
Qed.

Lemma Parser_parse_node fuel : returns (Parser_parse fuel) node.
Proof.
  destruct (parseExpr_block_node fuel) as [He Hb].
  apply parse_body_node; assumption.
Qed.

(** *** Through JSON *)

Lemma get_clone_props_string k o s :
  get k o = VStr s -> get k (clone_props json_clone o) = VStr s.
Proof.
  induction o as [| [k' v'] r IH]; cbn [get]; intros H; [discriminate |].
  destruct (String.eqb k k') eqn:E.
  - subst v'. cbn [clone_props get]. rewrite E. reflexivity.
  - destruct v'; cbn [clone_props get]; rewrite ?E; apply IH; exact H.
Qed.

Lemma Node_json_clone_both v :
  (Node v -> Node (json_clone v))
  /\ (forall l, v = VArr l -> Forall Node l ->
                Forall Node (clone_items json_clone l)).
Proof.
  induction v as [| | b | z | s | l IH | o IH] using value_induction;
    (split; [intros Hv; try (inversion Hv; fail) | intros l' E; try discriminate]).
  - inversion E; subst l'. clear E. intros Hl. unfold clone_items.
    induction l as [| x l IHl]; [constructor |].
    inversion IH as [| ? ? [Hx _] IHr]; subst.
    inversion Hl as [| ? ? Nx Nl]; subst.
    cbn [map]. constructor; [| apply IHl; assumption].
    destruct x; try (inversion Nx; fail). apply Hx. exact Nx.
  - inversion Hv as [o' t Ht Hin Hf]; subst.
    cbn [json_clone]. apply (Node_object _ t).
    + apply get_clone_props_string. exact Ht.
    + exact Hin.
    + clear Ht Hv. induction o as [| [k x] o IHo]; [constructor |].
      inversion IH as [| ? ? [Hx1 Hx2] IHr]; subst. cbn [snd] in Hx1, Hx2.
      inversion Hf as [| ? ? Fx Fo]; subst.
      specialize (IHo IHr Fo).
      inversion Fx; subst.
      * destruct x; cbn [clone_props]; try exact IHo;
          constructor; try exact IHo; apply Field_data; assumption.
      * exact IHo.
      * cbn [clone_props]. constructor; [apply Field_null | exact IHo].
      * match goal with N : Node x |- _ => inversion N; subst end.
        cbn [clone_props]. constructor; [| exact IHo].
        apply Field_node. apply Hx1. assumption.
      * cbn [clone_props json_clone]. constructor; [| exact IHo].
        apply Field_nodes. apply Hx2; [reflexivity | assumption].
Qed.

Lemma Node_json_clone v : Node v -> Node (json_clone v).
Proof. apply Node_json_clone_both. Qed.

Lemma Node_child v w : Node v -> child v w -> Node w.
Proof.
  intros Hv Hc. inversion Hc as [o k Hk Hu Hn | o l x Hg Hin]; subst.
  - inversion Hv as [o' t _ _ Hf]; subst.
    assert (Hi : In (k, get k o) o) by (apply get_in; [reflexivity | exact Hu]).
    rewrite Forall_forall in Hf. specialize (Hf _ Hi).
    inversion Hf; subst; try congruence; try assumption.
    discriminate.
  - pose proof (node_nodes o l Hv Hg) as Hl.
    rewrite Forall_forall in Hl. apply Hl. exact Hin.
Qed.

Lemma Node_node_of v w : Node v -> node_of v w -> Node w.
Proof.
  intros Hv H. induction H as [v | v w x Hc _ IH]; [exact Hv |].
  apply IH. eapply Node_child; eassumption.
Qed.


(** ** Termination: every method consumes what it is given fuel for *)

Lemma ok_ret {A} (a : A) p : ok 0 (ret a) p.
Proof. unfold ok, ret. lia. Qed.

Lemma ok_throw {A} d k msg p : ok d (@throw A k msg) p.
Proof. exact I. Qed.

Lemma ok_weaken {A} d d' (m : M A) p : d' <= d -> ok d m p -> ok d' m p.
Proof.
  unfold ok. intros Hd H. destruct (m p); [lia | exact I | exact H].
Qed.

Lemma ok_bind {A B} d1 d (m : M A) (f : A -> M B) p :
  ok d1 m p ->
  (forall a p1, m p = Ok a p1 -> size p1 + d1 <= size p ->
                ok (d - d1) (f a) p1) ->
  ok d (bind m f) p.
Proof.
  unfold ok at 1 3. unfold bind. intros Hm Hf.
  destruct (m p) as [a p1 | e |] eqn:E; [| exact I | exact Hm].
  specialize (Hf a p1 eq_refl Hm). unfold ok in Hf.
  destruct (f a p1); [lia | exact I | exact Hf].
Qed.

Lemma peek_Ok p k p1 :
  peek p = Ok k p1 -> p1 = p /\ exists r, _tokens (tokens p) = k :: r.
Proof.
  unfold peek, TokenStream_peek. destruct (_tokens (tokens p)) as [| k0 r] eqn:E;
    [discriminate |].
  intros H. inversion H; subst. split; [reflexivity | exists r; reflexivity].
Qed.

Lemma peek_is_Ok ty p b p1 :
  peek_is ty p = Ok b p1 ->
  p1 = p /\ exists k r, _tokens (tokens p) = k :: r
                        /\ b = String.eqb (Token.type k) ty.
Proof.
  unfold peek_is. intros H. apply bind_Ok in H.
  destruct H as (k & p2 & H1 & H2). apply peek_Ok in H1.
  destruct H1 as (-> & r & Hr). inversion H2; subst.
  split; [reflexivity | exists k, r; split; [exact Hr | reflexivity]].
Qed.

Lemma advance_Ok p k p1 :
  advance p = Ok k p1 ->
  exists r, _tokens (tokens p) = k :: r /\ _tokens (tokens p1) = r.
Proof.
  unfold advance, TokenStream_advance.
  destruct (_tokens (tokens p)) as [| k0 r] eqn:E; [discriminate |].
  intros H. inversion H; subst. exists r. split; reflexivity.
Qed.

Lemma ok_peek p : ok 0 peek p.
Proof.
  unfold ok, peek, TokenStream_peek.
  destruct (_tokens (tokens p)); [exact I | lia].
Qed.

Lemma ok_peek_is ty p : ok 0 (peek_is ty) p.
Proof.
  unfold ok, peek_is, bind, peek, TokenStream_peek.
  destruct (_tokens (tokens p)); [exact I | cbn [ret]; lia].
Qed.

Lemma ok_advance p : ok 1 advance p.
Proof.
  unfold ok, advance, TokenStream_advance, size.
  destruct (_tokens (tokens p)) eqn:E; [exact I | cbn; lia].
Qed.

Lemma ok_expect ty p : ok 1 (expect ty) p.
Proof.
  unfold ok, expect, bind, peek, advance, TokenStream_peek,
    TokenStream_advance, size.
  destruct (_tokens (tokens p)) as [| k r] eqn:E; [exact I |].
  destruct (String.eqb (Token.type k) ty).
  - rewrite E. cbn. lia.
  - rewrite E. exact I.
Qed.

Lemma ok_accept ty p : ok 0 (accept ty) p.
Proof.
  unfold ok, accept, bind, peek, advance, TokenStream_peek,
    TokenStream_advance, size.
  destruct (_tokens (tokens p)) as [| k r] eqn:E; [exact I |].
  destruct (String.eqb (Token.type k) ty).
  - rewrite E. cbn. rewrite ?E. cbn. lia.
  - cbn. rewrite ?E. cbn. lia.
Qed.

Lemma ok_lookahead i p : ok 0 (lookahead i) p.
Proof.
  unfold ok, lookahead, TokenStream_lookahead.
  destruct (nth_error _ _); [lia | exact I].
Qed.

Lemma ok_line p : ok 0 line p.
Proof. unfold ok, line. lia. Qed.

Lemma ok_this_filename p : ok 0 this_filename p.
Proof. unfold ok, this_filename. lia. Qed.

Lemma ok_this_inMixin p : ok 0 this_inMixin p.
Proof. unfold ok, this_inMixin. lia. Qed.

Lemma ok_set_inMixin b p : ok 0 (set_inMixin b) p.
Proof. unfold ok, set_inMixin, size. cbn. lia. Qed.

Lemma ok_console_warn msg p : ok 0 (console_warn msg) p.
Proof. unfold ok, console_warn, size. cbn. lia. Qed.

Lemma length_mark_at i l : length (mark_at i l) = length l.
Proof.
  revert i. induction l as [| k r IH]; intros [| i]; cbn; auto.
Qed.

Lemma ok_set_hasIf i p : ok 0 (set_hasIf i) p.
Proof. unfold ok, set_hasIf, size. cbn. rewrite length_mark_at. lia. Qed.

Lemma ok_elems v p : ok 0 (elems v) p.
Proof. unfold ok, elems. destruct v; try exact I. cbn. lia. Qed.

Lemma ok_as_obj v p : ok 0 (as_obj v) p.
Proof. unfold ok, as_obj. destruct v; try exact I. cbn. lia. Qed.

Lemma pure_Ok_elems v l p p1 : elems v p = Ok l p1 -> p1 = p.
Proof. destruct v; try discriminate. intros H. inversion H. reflexivity. Qed.

Lemma ok_push k x o p : ok 0 (push k x o) p.
Proof.
  unfold push. eapply ok_bind; [apply ok_elems |].
  intros l p1 E _. apply ok_ret.
Qed.

Lemma ok_push_block_node x o p : ok 0 (push_block_node x o) p.
Proof.
  unfold push_block_node. eapply ok_bind; [apply ok_as_obj |].
  intros b p1 _ _. eapply ok_bind; [apply ok_push |].
  intros b' p2 _ _. apply ok_ret.
Qed.

Lemma ok_for_each {A B} (body : B -> A -> M A) :
  (forall x a p, ok 0 (body x a) p) ->
  forall l a p, ok 0 (for_each body l a) p.
Proof.
  intros Hb. induction l as [| x l IH]; intros a p; cbn [for_each].
  - apply ok_ret.
  - eapply ok_bind; [apply Hb |]. intros a' p1 _ _. apply IH.
Qed.

(** A loop whose body consumes at least one token ends within as many
    turns as there are tokens. *)
Lemma ok_while {A} (cond : M bool) (body : A -> M A) n :
  forall L,
    L < n ->
    (forall p, size p <= L -> ok 0 cond p) ->
    (forall a p, size p <= L -> ok 1 (body a) p) ->
    forall a p, size p <= L -> ok 0 (while n cond body a) p.
Proof.
  induction n as [| n IH]; intros L Hn Hc Hb a p Hp; [lia |].
  rewrite while_S. eapply ok_bind; [apply Hc; exact Hp |].
  intros c p1 _ H1. destruct c; [| apply ok_ret].
  eapply ok_bind; [apply Hb; lia |].
  intros a' p2 _ H2. cbn [Nat.sub].
  apply (IH (L - 1)); try lia.
  - intros q Hq. apply Hc. lia.
  - intros a0 q Hq. apply Hb. lia.
Qed.

(** And when its condition holds at the start, at least one token is
    consumed. *)
Lemma ok_while_entered {A} (cond : M bool) (body : A -> M A) n :
  forall L,
    L < n ->
    (forall p, size p <= L -> ok 0 cond p) ->
    (forall a p, size p <= L -> ok 1 (body a) p) ->
    forall a p, size p <= L -> cond p = Ok true p ->
                ok 1 (while n cond body a) p.
Proof.
  intros L Hn Hc Hb a p Hp Hcond.
  destruct n as [| n]; [lia |].
  unfold ok. rewrite while_S. unfold bind at 1. rewrite Hcond.
  pose proof (Hb a p Hp) as H1. unfold ok in H1. unfold bind.
  destruct (body a p) as [a' p1 | e |]; [| exact I | exact H1].
  destruct n as [| n].
  - assert (size p = 0) by lia. lia.
  - pose proof (ok_while cond body (S n) (L - 1) ltac:(lia)
                  ltac:(intros q Hq; apply Hc; lia)
                  ltac:(intros a0 q Hq; apply Hb; lia) a' p1 ltac:(lia))
      as H2.
    unfold ok in H2. destruct (while (S n) cond body a' p1);
      [lia | exact I | exact H2].
Qed.

Create HintDb okdb.

#[local] Hint Resolve ok_peek ok_peek_is ok_advance ok_expect ok_accept
  ok_lookahead ok_line ok_this_filename ok_this_inMixin ok_set_inMixin
  ok_console_warn ok_set_hasIf ok_elems ok_as_obj ok_push
  ok_push_block_node : okdb.
#[local] Hint Extern 1 (_ <= _) => lia : okdb.
#[local] Hint Extern 1 (_ < _) => lia : okdb.

Ltac ok_go :=
  repeat lazymatch goal with
  | |- ok _ (ret _) _ => apply ok_ret
  | |- ok _ (throw _ _) _ => exact I
  | |- ok _ type_error _ => exact I
  | |- ok _ (duplicate_attribute _) _ => exact I
  | |- ok _ (bind _ _) _ =>
      eapply ok_bind;
      [ solve [eauto 3 with okdb] | intros ? ? ? ?; cbn [Nat.sub] ]
  | |- ok _ (if ?b then _ else _) _ => destruct b
  | |- ok _ (match ?x with _ => _ end) _ => destruct x
  | |- ok _ _ _ =>
      first [ solve [eauto 3 with okdb]
            | eapply ok_weaken; [| solve [eauto 3 with okdb]]; lia ]
  end.

Section Termination.

Variable f : nat.
Variables pe blk : M obj.
Hypothesis HE : forall p, 2 * size p + 2 <= f -> ok 1 pe p.
Hypothesis HB : forall p, 2 * size p + 2 <= f -> ok 1 blk p.

#[local] Hint Resolve HE HB : okdb.

Lemma line_Ok p l p1 : line p = Ok l p1 -> p1 = p.
Proof. unfold line. intros H. inversion H. reflexivity. Qed.

Lemma parseText_ok b p :
  size p < f -> 2 * size p <= f -> ok 0 (parseText f pe b) p.
Proof.
  intros H1 H2. unfold parseText. eapply ok_bind with (d1 := 0).
  - apply ok_while with (L := size p); [lia | | | lia].
    + intros q Hq. ok_go.
    + intros acc q Hq. ok_go.
  - intros. ok_go.
Qed.

Lemma parseText_entered b p k r :
  _tokens (tokens p) = k :: r ->
  String.eqb (Token.type k) "text"
  || String.eqb (Token.type k) "start-jade-interpolation" = true ->
  size p < f -> 2 * size p <= f -> ok 1 (parseText f pe b) p.
Proof.
  intros Hp Hk H1 H2. unfold parseText. eapply ok_bind with (d1 := 1).
  - apply ok_while_entered with (L := size p); [lia | | | lia |].
    + intros q Hq. ok_go.
    + intros acc q Hq. ok_go.
    + unfold bind, peek, TokenStream_peek. rewrite Hp. cbn [ret].
      rewrite Hk. reflexivity.
  - intros. ok_go.
Qed.

Lemma parseTextHtml_step_ok st p :
  2 * size p <= f -> ok 1 (parseTextHtml_step blk st) p.
Proof.
  intros Hp. unfold parseTextHtml_step. destruct st as [nodes cur]. ok_go.
Qed.

Lemma parseTextHtml_ok p :
  size p < f -> 2 * size p <= f -> ok 0 (parseTextHtml f blk) p.
Proof.
  intros H1 H2. unfold parseTextHtml. eapply ok_bind with (d1 := 0).
  - apply ok_while with (L := size p); [lia | | | lia].
    + intros q Hq. apply ok_peek_is.
    + intros acc q Hq. apply parseTextHtml_step_ok. lia.
  - intros. ok_go.
Qed.

Lemma parseTextHtml_entered p k r :
  _tokens (tokens p) = k :: r ->
  String.eqb (Token.type k) "text-html" = true ->
  size p < f -> 2 * size p <= f -> ok 1 (parseTextHtml f blk) p.
Proof.
  intros Hp Hk H1 H2. unfold parseTextHtml. eapply ok_bind with (d1 := 1).
  - apply ok_while_entered with (L := size p); [lia | | | lia |].
    + intros q Hq. apply ok_peek_is.
    + intros acc q Hq. apply parseTextHtml_step_ok. lia.
    + unfold peek_is, bind, peek, TokenStream_peek. rewrite Hp. cbn [ret].
      rewrite Hk. reflexivity.
  - intros. ok_go.
Qed.

Lemma parseBlockExpansion_ok p :
  2 * size p + 2 <= f -> ok 1 (parseBlockExpansion pe blk) p.
Proof.
  intros Hp. unfold parseBlockExpansion.
  eapply ok_bind; [apply ok_peek_is |].
  intros c p1 E _. apply peek_is_Ok in E. destruct E as (-> & _).
  cbn [Nat.sub]. destruct c; [ok_go | apply HB; exact Hp].
Qed.

#[local] Hint Resolve parseText_ok parseTextHtml_ok parseBlockExpansion_ok
  : okdb.

Lemma parseWhen_ok p : 2 * size p <= f -> ok 1 (parseWhen pe blk) p.
Proof. intros Hp. unfold parseWhen. ok_go. Qed.

Lemma parseDefault_ok p : 2 * size p <= f -> ok 1 (parseDefault pe blk) p.
Proof. intros Hp. unfold parseDefault. ok_go. Qed.

#[local] Hint Resolve parseWhen_ok parseDefault_ok : okdb.

Lemma parseCase_ok p :
  size p < f -> 2 * size p <= f -> ok 1 (parseCase f pe blk) p.
Proof.
  intros H1 H2. unfold parseCase.
  eapply ok_bind; [apply ok_expect |]. intros tok p1 _ Hs1. cbn [Nat.sub].
  eapply ok_bind; [apply ok_this_filename |]. intros fn p2 _ Hs2.
  eapply ok_bind; [apply ok_expect |]. intros ? p3 _ Hs3. cbn [Nat.sub].
  eapply ok_bind with (d1 := 0).
  - apply ok_while with (L := size p3); [lia | | | lia].
    + intros q Hq. ok_go.
    + intros acc q Hq.
      eapply ok_bind; [apply ok_peek |]. intros k q1 E _.
      apply peek_Ok in E. destruct E as (-> & _). cbn [Nat.sub].
      destruct (String.eqb (Token.type k) "newline"); [ok_go |].
      destruct (String.eqb (Token.type k) "when").
      { eapply ok_bind; [apply parseWhen_ok; lia |]. intros. ok_go. }
      destruct (String.eqb (Token.type k) "default").
      { eapply ok_bind; [apply parseDefault_ok; lia |]. intros. ok_go. }
      exact I.
  - intros. ok_go.
Qed.

Lemma parseCode_ok p : 2 * size p <= f -> ok 1 (parseCode blk) p.
Proof.
  intros Hp. unfold parseCode.
  eapply ok_bind; [apply ok_expect |]. intros tok p1 _ Hs1. cbn [Nat.sub].
  eapply ok_bind; [apply ok_line |]. intros l p2 _ Hs2. cbn [Nat.sub].
  destruct (Token.isElse tok && negb (Token.hasIf tok)); [exact I |].
  eapply ok_bind; [apply ok_peek_is |]. intros b p3 _ Hs3. cbn [Nat.sub].
  eapply ok_bind with (d1 := 0).
  { destruct b; ok_go. }
  intros nd p4 _ Hs4. cbn [Nat.sub].
  eapply ok_bind with (d1 := 0).
  { destruct (Token.isIf tok); ok_go. }
  intros. ok_go.
Qed.

Lemma parseDoctype_ok p : ok 1 parseDoctype p.
Proof. unfold parseDoctype. ok_go. Qed.

Lemma parseExtends_ok p : ok 1 parseExtends p.
Proof. unfold parseExtends. ok_go. Qed.

Lemma parseMixinBlock_ok p : ok 1 parseMixinBlock p.
Proof. unfold parseMixinBlock. ok_go. Qed.

Lemma parseTextBlock_ok p :
  size p < f -> 2 * size p <= f -> ok 0 (parseTextBlock f pe) p.
Proof.
  intros H1 H2. unfold parseTextBlock.
  eapply ok_bind; [apply ok_peek_is |]. intros s p1 _ Hs1. cbn [Nat.sub].
  destruct (negb s); [ok_go |].
  eapply ok_bind; [apply ok_advance |]. intros ? p2 _ Hs2. cbn [Nat.sub].
  eapply ok_bind with (d1 := 0).
  - apply ok_while with (L := size p2); [lia | | | lia].
    + intros q Hq. ok_go.
    + intros acc q Hq. ok_go.
  - intros. ok_go.
Qed.

#[local] Hint Resolve parseCase_ok parseCode_ok parseDoctype_ok
  parseExtends_ok parseMixinBlock_ok parseTextBlock_ok : okdb.

Lemma parseComment_ok p : size p < f -> 2 * size p <= f ->
                          ok 1 (parseComment f pe) p.
Proof. intros H1 H2. unfold parseComment. ok_go. Qed.

Lemma parseFilter_ok p : size p < f -> 2 * size p <= f ->
                         ok 1 (parseFilter f pe) p.
Proof. intros H1 H2. unfold parseFilter. ok_go. Qed.

Lemma parseEach_ok p : 2 * size p <= f -> ok 1 (parseEach blk) p.
Proof. intros Hp. unfold parseEach. ok_go. Qed.

Lemma parseBlock_ok p : 2 * size p <= f -> ok 1 (parseBlock blk) p.
Proof.
  intros Hp. unfold parseBlock.
  eapply ok_bind; [apply ok_expect |]. intros tok p1 _ Hs1. cbn [Nat.sub].
  eapply ok_bind; [apply ok_peek_is |]. intros i p2 _ Hs2. cbn [Nat.sub].
  eapply ok_bind with (d1 := 0).
  { destruct i; [eapply ok_weaken; [| apply HB]; lia | ok_go]. }
  intros. ok_go.
Qed.

Lemma parseInclude_ok p : 2 * size p <= f -> ok 1 (parseInclude blk) p.
Proof.
  intros Hp. unfold parseInclude.
  eapply ok_bind; [apply ok_expect |]. intros tok p1 _ Hs1. cbn [Nat.sub].
  eapply ok_bind; [apply ok_peek_is |]. intros i p2 _ Hs2. cbn [Nat.sub].
  eapply ok_bind with (d1 := 0).
  { destruct i; [eapply ok_weaken; [| apply HB]; lia | ok_go]. }
  intros. ok_go.
Qed.

Lemma parseMixin_ok p : 2 * size p <= f -> ok 1 (parseMixin blk) p.
Proof. intros Hp. unfold parseMixin. ok_go. Qed.

#[local] Hint Resolve parseComment_ok parseFilter_ok parseEach_ok
  parseBlock_ok parseInclude_ok parseMixin_ok : okdb.

Lemma tag_attr_ok a st p : ok 0 (tag_attr a st) p.
Proof.
  unfold tag_attr. destruct st as [t names].
  eapply ok_bind with (d1 := 0).
  { destruct (negb _); [destruct (existsb _ _) |]; ok_go. }
  intros. ok_go.
Qed.

Lemma tag_attributes_ok st p : ok 1 (tag_attributes st) p.
Proof.
  unfold tag_attributes. destruct st as [[t seen] names].
  eapply ok_bind; [apply ok_peek |]. intros k p1 _ _. cbn [Nat.sub].
  destruct (String.eqb (Token.type k) "id"
            || String.eqb (Token.type k) "class").
  { eapply ok_bind; [apply ok_advance |]. intros tok p2 _ _. cbn [Nat.sub].
    eapply ok_bind with (d1 := 0).
    { destruct (String.eqb (Token.type tok) "id");
        [destruct (existsb _ _) |]; ok_go. }
    intros. ok_go. }
  destruct (String.eqb (Token.type k) "attrs"); [| ok_go].
  eapply ok_bind with (d1 := 0).
  { destruct seen; ok_go. }
  intros ? p2 _ _. cbn [Nat.sub].
  eapply ok_bind; [apply ok_advance |]. intros tok p3 _ _. cbn [Nat.sub].
  eapply ok_bind with (d1 := 0).
  { destruct (Token.attrs tok); ok_go. }
  intros attrs p4 _ _. cbn [Nat.sub].
  eapply ok_bind; [apply ok_for_each; intros; apply tag_attr_ok |].
  intros. ok_go.
Qed.

Lemma newline_loop_ok p :
  size p < f ->
  ok 0 (while f (peek_is "newline") (fun _ : unit => advance ;;; ret tt) tt) p.
Proof.
  intros Hp. apply ok_while with (L := size p); [lia | | | lia].
  - intros q Hq. apply ok_peek_is.
  - intros acc q Hq. ok_go.
Qed.

Lemma attribute_loop_ok st p :
  size p < f ->
  ok (if attribute_ahead p then 1 else 0)
     (while f (k <- peek ;; ret (is_attribute_token k)) tag_attributes st) p.
Proof.
  intros Hp. destruct (attribute_ahead p) eqn:Ha.
  - apply ok_while_entered with (L := size p); [lia | | | lia |].
    + intros q Hq. ok_go.
    + intros acc q Hq. apply tag_attributes_ok.
    + unfold attribute_ahead in Ha. unfold bind, peek, TokenStream_peek.
      destruct (_tokens (tokens p)); [discriminate |].
      cbn [ret]. rewrite Ha. reflexivity.
  - apply ok_while with (L := size p); [lia | | | lia].
    + intros q Hq. ok_go.
    + intros acc q Hq. apply tag_attributes_ok.
Qed.

#[local] Hint Resolve newline_loop_ok : okdb.

Lemma tag_ok t p :
  size p < f ->
  (if attribute_ahead p then 2 * size p <= f else 2 * size p + 2 <= f) ->
  ok (if attribute_ahead p then 1 else 0) (tag f pe blk t) p.
Proof.
  intros H1 H2. unfold tag.
  eapply ok_bind; [apply ok_line |]. intros l p1 E _.
  apply line_Ok in E. subst p1. rewrite Nat.sub_0_r.
  eapply ok_bind; [apply attribute_loop_ok; exact H1 |].
  intros st p2 _ Hs2.
  assert (Hp2 : 2 * size p2 + 2 <= f)
    by (destruct (attribute_ahead p); lia).
  replace ((if attribute_ahead p then 1 else 0)
           - (if attribute_ahead p then 1 else 0)) with 0
    by (destruct (attribute_ahead p); reflexivity).
  clear Hs2 H2.
  eapply ok_bind; [apply ok_peek_is |]. intros dot p3 _ Hs3. cbn [Nat.sub].
  eapply ok_bind with (d1 := 0).
  { destruct dot; ok_go. }
  intros t1 p4 _ Hs4. cbn [Nat.sub].
  eapply ok_bind; [apply ok_peek |]. intros k p5 _ Hs5. cbn [Nat.sub].
  eapply ok_bind with (d1 := 0).
  { destruct (String.eqb (Token.type k) "text"); [ok_go |].
    destruct (String.eqb (Token.type k) "code"); [ok_go |].
    destruct (String.eqb (Token.type k) ":"); [ok_go |].
    ok_go. }
  intros t2 p6 _ Hs6. cbn [Nat.sub].
  eapply ok_bind; [apply newline_loop_ok; lia |].
  intros ? p7 _ Hs7. cbn [Nat.sub].
  destruct (truthy (get "textOnly" t2)); [ok_go |].
  eapply ok_bind; [apply ok_peek_is |]. intros i p8 _ Hs8. cbn [Nat.sub].
  destruct i; [| ok_go].
  eapply ok_bind; [apply HB; lia |]. intros b p9 _ Hs9. cbn [Nat.sub].
  eapply ok_bind; [apply ok_elems |]. intros nodes p10 _ Hs10. cbn [Nat.sub].
  apply ok_for_each. intros. apply ok_push_block_node.
Qed.

Lemma tag_plain_ok t p : 2 * size p + 2 <= f -> ok 0 (tag f pe blk t) p.
Proof.
  intros Hp. eapply ok_weaken; [| apply tag_ok]; [lia | lia |].
  destruct (attribute_ahead p); lia.
Qed.

#[local] Hint Resolve tag_plain_ok : okdb.

Lemma parseCall_ok p : 2 * size p <= f -> ok 1 (parseCall f pe blk) p.
Proof.
  intros Hp. unfold parseCall.
  eapply ok_bind; [apply ok_expect |]. intros tok p1 _ Hs1. cbn [Nat.sub].
  eapply ok_bind; [apply tag_plain_ok; lia |]. intros m p2 _ Hs2.
  cbn [Nat.sub].
  eapply ok_bind with (d1 := 0).
  { destruct (truthy (get "code" m)); ok_go. }
  intros. ok_go.
Qed.

Lemma parseInterpolation_ok p :
  2 * size p <= f -> ok 1 (parseInterpolation f pe blk) p.
Proof. intros Hp. unfold parseInterpolation. ok_go. Qed.

Lemma parseTag_ok p : 2 * size p <= f -> ok 1 (parseTag f pe blk) p.
Proof. intros Hp. unfold parseTag. ok_go. Qed.

(** parseTag on the deferred div: the tag token and the id or class token
    behind it are both consumed. *)
Lemma parseTag_deferred_ok p :
  deferred_tag p -> 2 * size p <= f + 2 -> ok 2 (parseTag f pe blk) p.
Proof.
  intros (k & k' & r & Hp & _ & Hk') Hs. unfold parseTag.
  eapply ok_bind; [apply ok_advance |]. intros tok p1 E Hs1.
  apply advance_Ok in E. destruct E as (r1 & E1 & E2).
  rewrite Hp in E1.
  assert (Htok : k = tok /\ k' :: r = r1) by (split; congruence).
  destruct Htok as [<- <-]. clear E1.
  assert (Ha : attribute_ahead p1 = true).
  { unfold attribute_ahead. rewrite E2. unfold is_attribute_token.
    destruct Hk' as [-> | ->]; reflexivity. }
  assert (Hsz : size p = S (size p1)).
  { unfold size. rewrite Hp, E2. reflexivity. }
  assert (Hsz1 : 1 <= size p1).
  { unfold size. rewrite E2. cbn. lia. }
  pose proof (tag_ok
    [("type", VStr "Tag"); ("name", VStr (Token.val k));
     ("selfClosing", Token.selfClosing k); ("block", VObj empty_block);
     ("attrs", VArr []); ("attributeBlocks", VArr []);
     ("isInline", VBool (existsb (String.eqb (Token.val k)) inlineTags))]
    p1 ltac:(lia)) as Ht.
  rewrite Ha in Ht. cbn [Nat.sub]. apply Ht. lia.
Qed.

#[local] Hint Resolve parseCall_ok parseInterpolation_ok parseTag_ok : okdb.

Lemma block_body_ok p : 2 * size p + 1 <= f -> ok 1 (block_body f pe blk) p.
Proof.
  intros Hp. unfold block_body.
  eapply ok_bind; [apply ok_line |]. intros l p1 _ Hs1. cbn [Nat.sub].
  eapply ok_bind; [apply ok_this_filename |]. intros fn p2 _ Hs2.
  cbn [Nat.sub].
  eapply ok_bind; [apply ok_expect |]. intros ? p3 _ Hs3. cbn [Nat.sub].
  eapply ok_bind with (d1 := 0).
  - apply ok_while with (L := size p3); [lia | | | lia].
    + intros q Hq. ok_go.
    + intros acc q Hq.
      eapply ok_bind; [apply ok_peek |]. intros k q1 E _.
      apply peek_Ok in E. destruct E as (-> & r & Hr). cbn [Nat.sub].
      destruct (String.eqb (Token.type k) "newline"); [ok_go |].
      destruct (String.eqb (Token.type k) "text-html") eqn:Hh.
      * eapply ok_bind;
          [apply (parseTextHtml_entered q k r Hr Hh); lia |].
        intros. ok_go.
      * ok_go.
  - intros. ok_go.
Qed.

(** parseExpr, given that the recursive call copes with the deferred
    div. *)
Hypothesis HD : forall p, deferred_tag p -> 2 * size p <= f + 1 -> ok 2 pe p.

Lemma parseExpr_body_ok p :
  2 * size p + 1 <= f -> ok 1 (parseExpr_body f pe blk) p.
Proof.
  intros Hp. unfold parseExpr_body.
  eapply ok_bind; [apply ok_peek |]. intros k p1 E _.
  apply peek_Ok in E. destruct E as (-> & r & Hr). cbn [Nat.sub]. cbv zeta.
  destruct (String.eqb (Token.type k) "tag"); [apply parseTag_ok; lia |].
  destruct (String.eqb (Token.type k) "mixin"); [apply parseMixin_ok; lia |].
  destruct (String.eqb (Token.type k) "block"); [apply parseBlock_ok; lia |].
  destruct (String.eqb (Token.type k) "mixin-block");
    [apply parseMixinBlock_ok |].
  destruct (String.eqb (Token.type k) "case");
    [apply parseCase_ok; lia |].
  destruct (String.eqb (Token.type k) "extends"); [apply parseExtends_ok |].
  destruct (String.eqb (Token.type k) "include");
    [apply parseInclude_ok; lia |].
  destruct (String.eqb (Token.type k) "doctype"); [apply parseDoctype_ok |].
  destruct (String.eqb (Token.type k) "filter");
    [apply parseFilter_ok; lia |].
  destruct (String.eqb (Token.type k) "comment");
    [apply parseComment_ok; lia |].
  destruct (String.eqb (Token.type k) "text"
            || String.eqb (Token.type k) "start-jade-interpolation") eqn:Ht;
    [apply (parseText_entered true p k r Hr Ht); lia |].
  destruct (String.eqb (Token.type k) "each"); [apply parseEach_ok; lia |].
  destruct (String.eqb (Token.type k) "code"); [apply parseCode_ok; lia |].
  destruct (String.eqb (Token.type k) "call"); [apply parseCall_ok; lia |].
  destruct (String.eqb (Token.type k) "interpolation");
    [apply parseInterpolation_ok; lia |].
  destruct (String.eqb (Token.type k) "yield"); [ok_go |].
  destruct (String.eqb (Token.type k) "id"
            || String.eqb (Token.type k) "class") eqn:Hid; [| exact I].
  unfold ok, bind, TokenStream_defer.
  match goal with
  | |- match pe ?q with _ => _ end =>
      assert (Hq : deferred_tag q);
      [| assert (Hs : size q = S (size p)) by (unfold size; reflexivity);
         pose proof (HD q Hq ltac:(lia)) as H; unfold ok in H;
         destruct (pe q); [lia | exact I | exact H] ]
  end.
  exists (Token.mk "tag" "div" (Token.line k) VUndef VUndef VUndef VUndef
                   VUndef VUndef VUndef VUndef None false false false false),
    k, r.
  cbn [tokens _tokens Token.type]. rewrite Hr.
  split; [reflexivity |]. split; [reflexivity |].
  apply orb_true_iff in Hid.
  destruct Hid as [H | H]; apply String.eqb_eq in H; [left | right]; exact H.
Qed.

Lemma parseExpr_body_deferred_ok p :
  deferred_tag p -> 2 * size p <= f + 2 -> ok 2 (parseExpr_body f pe blk) p.
Proof.
  intros Hd Hs. pose proof Hd as (k & k' & r & Hp & Hk & Hk').
  unfold parseExpr_body.
  unfold ok, bind, peek, TokenStream_peek. rewrite Hp. cbv zeta.
  rewrite Hk. rewrite String.eqb_refl.
  apply (parseTag_deferred_ok p Hd Hs).
Qed.

Lemma parse_body_ok p :
  size p < f -> 2 * size p + 2 <= f -> ok 0 (parse_body f pe blk) p.
Proof.
  intros H1 H2. unfold parse_body.
  eapply ok_bind; [apply ok_this_filename |]. intros fn p1 _ Hs1.
  cbn [Nat.sub].
  eapply ok_bind with (d1 := 0).
  - apply ok_while with (L := size p1); [lia | | | lia].
    + intros q Hq. ok_go.
    + intros acc q Hq.
      eapply ok_bind; [apply ok_peek |]. intros k q1 E _.
      apply peek_Ok in E. destruct E as (-> & r & Hr). cbn [Nat.sub].
      destruct (String.eqb (Token.type k) "newline"); [ok_go |].
      destruct (String.eqb (Token.type k) "text-html") eqn:Hh.
      * eapply ok_bind;
          [apply (parseTextHtml_entered q k r Hr Hh); lia |].
        intros. ok_go.
      * ok_go.
  - intros. ok_go.
Qed.

End Termination.

Lemma parse_functions_ok fuel :
  (forall p, 2 * size p + 2 <= fuel -> ok 1 (parseExpr fuel) p)
  /\ (forall p, deferred_tag p -> 2 * size p <= fuel + 1 ->
                ok 2 (parseExpr fuel) p)
  /\ (forall p, 2 * size p + 2 <= fuel -> ok 1 (block fuel) p).
Proof.
  induction fuel as [| f (IHe & IHd & IHb)].
  - split; [| split].
    + intros p H. lia.
    + intros p (k & k' & r & Hp & _) H.
      assert (size p = S (S (length r))) by (unfold size; rewrite Hp; reflexivity).
      lia.
    + intros p H. lia.
  - split; [| split]; cbn [parseExpr block].
    + intros p H. apply parseExpr_body_ok; try assumption. lia.
    + intros p Hd H. apply parseExpr_body_deferred_ok; try assumption. lia.
    + intros p H. apply block_body_ok; try assumption. lia.
Qed.

(** The fuel [parse] takes is enough: on every token list it returns a tree
    or throws.  The loops and the recursion end because every turn of a
    loop, and every parseExpr or block call that returns, consumes a
    token. *)
Theorem parse_terminates :
  forall (toks : list Token.t) (fname : value),
    parse toks fname <> Unfinished.
Proof.
  intros toks fname. unfold parse, parse_with, Parser_parse.
  destruct (parse_functions_ok (fuel_for toks)) as (He & _ & Hb).
  pose proof (parse_body_ok (fuel_for toks) _ _ He Hb
                (new_Parser toks fname)) as H.
  unfold fuel_for in *.
  assert (Hs : size (new_Parser toks fname) = length toks) by reflexivity.
  specialize (H ltac:(lia) ltac:(lia)). unfold ok in H.
  destruct (parse_body _ _ _ _); [discriminate | discriminate | contradiction].
Qed.

(** With fuel for the tokens at hand, parseExpr and block do not run out of
    it, and what they return has cost at least one token. *)
Theorem parseExpr_and_block_consume :
  forall (fuel : nat) (p : Parser),
    2 * size p + 2 <= fuel ->
    parseExpr fuel p <> OutOfFuel
    /\ block fuel p <> OutOfFuel
    /\ (forall o p', parseExpr fuel p = Ok o p' -> size p' < size p)
    /\ (forall o p', block fuel p = Ok o p' -> size p' < size p).
Proof.
  intros fuel p H.
  destruct (parse_functions_ok fuel) as (He & _ & Hb).
  specialize (He p H). specialize (Hb p H). unfold ok in He, Hb.
  repeat split.
  - intros E. rewrite E in He. exact He.
  - intros E. rewrite E in Hb. exact Hb.
  - intros o p' E. rewrite E in He. lia.
  - intros o p' E. rewrite E in Hb. lia.
Qed.

(** ** What [tag] leaves alone *)

Lemma push_keeps k' x o :
  returns (push k' x o) (fun o' => forall k, k <> k' -> get k o' = get k o).
Proof.
  unfold push. rstep. rstep. intros k Hk. apply get_set_other. exact Hk.
Qed.

Lemma push_block_node_keeps x o :
  returns (push_block_node x o)
          (fun o' => forall k, k <> "block" -> get k o' = get k o).
Proof.
  unfold push_block_node. rstep. rstep. rstep.
  intros k Hk. apply get_set_other. exact Hk.
Qed.

Lemma tag_attr_keeps a st :
  returns (tag_attr a st)
          (fun st' => forall k, k <> "attrs" ->
                                get k (fst st') = get k (fst st)).
Proof.
  destruct st as [t names]. unfold tag_attr. rstep.
  rbind push_keeps. rstep. cbn [fst]. assumption.
Qed.

Lemma tag_attributes_keeps st :
  returns (tag_attributes st)
          (fun st' => forall k, k <> "attrs" -> k <> "attributeBlocks" ->
                                k <> "selfClosing" ->
                                get k (fst (fst st')) = get k (fst (fst st))).
Proof.
  destruct st as [[t seen] names]. unfold tag_attributes. cbn [fst].
  rstep. rstep; [| rstep].
  - rstep. rstep. rbind push_keeps. rstep. cbn [fst]. auto.
  - rstep. rstep. rstep.
    eapply returns_bind
      with (R := fun r => forall k, k <> "attrs" -> k <> "selfClosing" ->
                                    get k (fst r) = get k t).
    + apply returns_for_each with (P := fun _ => True).
      * intros x st' _ Hst'.
        eapply returns_weaken; [apply tag_attr_keeps |].
        cbv beta. intros st'' H k Hk Hs. rewrite H by assumption. auto.
      * apply Forall_forall. intros; exact I.
      * cbn [fst]. intros k _ Hs. destruct (truthy _); [| reflexivity].
        apply get_set_other. exact Hs.
    + intros r Hr. rstep. cbn [fst]. auto.
  - rstep. rbind push_keeps. rstep. cbn [fst]. auto.
Qed.

(** [tag] is its attribute loop, run on the tag with [line] set, and a
    rest that writes no property but [textOnly], [block] and [code]. *)
Lemma tag_split n pe blk t p o p' :
  tag n pe blk t p = Ok o p' ->
  exists st p2,
    while n (k <- peek ;; ret (is_attribute_token k)) tag_attributes
      (set "line" (lineno (tokens p)) t, false, []) p
    = Ok st p2
    /\ (forall k, k <> "textOnly" -> k <> "block" -> k <> "code" ->
                  get k o = get k (fst (fst st))).
Proof.
  unfold tag. intros H.
  apply bind_Ok in H. destruct H as (l & p1 & Hl & H).
  unfold line in Hl. inversion Hl; subst l p1; clear Hl.
  apply bind_Ok in H. destruct H as (st & p2 & Hw & H).
  exists st, p2. split; [exact Hw |].
  set (T := fst (fst st)) in *.
  match type of H with
  | ?m p2 = Ok o p' =>
      assert (R : returns m
                    (fun o => forall k, k <> "textOnly" -> k <> "block" ->
                                        k <> "code" -> get k o = get k T))
  end; [| exact (R _ _ _ H)].
  clear H Hw.
  rstep.
  eapply returns_bind
    with (R := fun t1 => forall k, k <> "textOnly" -> get k t1 = get k T).
  { rstep; [| rstep; auto].
    rstep. rstep. intros k Hk. apply get_set_other. exact Hk. }
  intros t1 H1. rstep.
  eapply returns_bind
    with (R := fun t2 => forall k, k <> "textOnly" -> k <> "block" ->
                                   k <> "code" -> get k t2 = get k T).
  { rstep.
    - rstep. eapply returns_weaken; [apply push_block_node_keeps |].
      cbv beta. intros t2 H2 k Ha Hb Hc. rewrite H2 by assumption. auto.
    - rstep.
      + rstep. rstep. intros k Ha Hb Hc.
        rewrite get_set_other by assumption. auto.
      + rstep.
        * rstep. rstep. rstep. intros k Ha Hb Hc.
          rewrite get_set_other by assumption. auto.
        * rstep; [rstep; auto | rstep]. }
  intros t2 H2. rstep. rstep.
  - rstep. rstep. intros k Ha Hb Hc.
    rewrite get_set_other by assumption. auto.
  - rstep. rstep; [| rstep; exact H2].
    rstep. rstep.
    apply returns_for_each with (P := fun _ => True).
    + intros x t' _ Ht'.
      eapply returns_weaken; [apply push_block_node_keeps |].
      cbv beta. intros t'' H k Ha Hb Hc. rewrite H by assumption. auto.
    + apply Forall_forall. intros; exact I.
    + exact H2.
Qed.

Lemma attribute_loop_keeps n t st0 :
  (forall k, ~ written_by_tag k -> get k (fst (fst st0)) = get k t) ->
  returns (while n (k <- peek ;; ret (is_attribute_token k)) tag_attributes
             st0)
          (fun st => forall k, ~ written_by_tag k ->
                               get k (fst (fst st)) = get k t).
Proof.
  intros H0.
  apply returns_while
    with (Inv := fun st => forall k, ~ written_by_tag k ->
                                     get k (fst (fst st)) = get k t);
    [| exact H0].
  intros st Hst.
  eapply returns_weaken; [apply tag_attributes_keeps |].
  cbv beta. intros st' H k Hk.
  rewrite H; [apply Hst; exact Hk | | |];
    intros ->; apply Hk; unfold written_by_tag; cbn [In]; tauto.
Qed.

(** [tag] leaves every property alone but [line], [attrs],
    [attributeBlocks], [selfClosing], [textOnly], [block] and [code]. *)
Lemma tag_keeps n pe blk t p o p' k :
  ~ written_by_tag k ->
  tag n pe blk t p = Ok o p' -> get k o = get k t.
Proof.
  intros Hk H. apply tag_split in H. destruct H as (st & p2 & Hw & Hrest).
  rewrite Hrest by (intros ->; apply Hk; unfold written_by_tag; cbn [In]; tauto).
  refine (attribute_loop_keeps n t _ _ _ _ _ Hw k Hk).
  cbn [fst]. intros k' Hk'. apply get_set_other.
  intros ->; apply Hk'; unfold written_by_tag; cbn [In]; tauto.
Qed.

(** C1, as the code has it: within one tag, the names under the uniqueness
    check are ['id'] for each id token and the names other than ['class'] of
    the entries of each attrs token, taken together over the whole run of
    id / class / attrs / &attributes tokens behind the tag token.  If one of
    them occurs a second time, parseTag throws the duplicate-attribute error
    for the first name that repeats.  If parseTag returns, none repeats and
    the Tag's attrs are the entries of the run in source order; ['class'] is
    not checked, so the tokens tag 'div', attrs [class a], attrs [class b],
    closed by eos, parse into a Tag with both class entries in order. *)
Theorem duplicate_attribute_is_rejected :
  forall (n : nat) (pe blk : M obj) (p : Parser)
         (k : Token.t) (run rest : list Token.t) (x : string),
    _tokens (tokens p) = k :: run ++ rest ->
    Forall attribute_token run ->
    length run < n ->
    (first_duplicate [] (attribute_names run) = Some x ->
     parseTag n pe blk p = Throw (duplicate_error x))
    /\ (forall o p',
           parseTag n pe blk p = Ok o p' ->
           (exists k0 r, rest = k0 :: r /\ is_attribute_token k0 = false) ->
           first_duplicate [] (attribute_names run) = None
           /\ get "attrs" o = VArr (flat_map attr_entries run))
    /\ (forall fname,
           exists ast tag,
             parse div_two_classes fname = Returns ast
             /\ nodes_of ast = [tag]
             /\ prop "type" tag = VStr "Tag"
             /\ prop "name" tag = VStr "div"
             /\ prop "attrs" tag
                = VArr [VObj [("name", VStr "class"); ("val", VStr "a");
                              ("escaped", VBool true)];
                        VObj [("name", VStr "class"); ("val", VStr "b");
                              ("escaped", VBool true)]]).
Proof.
  intros n pe blk p k run rest x Hp Hrun Hn.
  destruct_parser p.
  pose proof (tag_attributes_run run n
                (set "line" (lineno_after k ln)
                   [("type", VStr "Tag"); ("name", VStr (Token.val k));
                    ("selfClosing", Token.selfClosing k);
                    ("block", VObj empty_block);
                    ("attrs", VArr []); ("attributeBlocks", VArr []);
                    ("isInline",
                     VBool (existsb (String.eqb (Token.val k)) inlineTags))])
                false [] [] [] rest
                (lineno_after k ln) filename0 inMixin0 console0
                Hrun Hn) as Hloop.
  rewrite get_set_other in Hloop by discriminate.
  rewrite get_set_other in Hloop by discriminate.
  specialize (Hloop eq_refl eq_refl).
  split; [| split].
  - intros Hdup. unfold parseTag, tag. mrun.
    rewrite Hdup in Hloop. unfold bind at 1. rewrite Hloop. reflexivity.
  - intros o p' H Hrest. unfold parseTag in H. mrun_in H.
    apply tag_split in H. destruct H as (st & p2 & Hw & Hkeep).
    cbn [tokens lineno] in Hw.
    destruct (first_duplicate [] (attribute_names run)) as [y |].
    + rewrite Hloop in Hw. discriminate.
    + split; [reflexivity |].
      destruct (Hloop Hrest) as (t' & s' & q & E & _ & _ & _ & Ha & _).
      rewrite E in Hw. inversion Hw; subst st q.
      rewrite Hkeep by discriminate. exact Ha.
  - intros fname.
    do 2 eexists. split; [reflexivity |].
    repeat split; reflexivity.
Qed.

(** C9, as the code has it: a Tag made of a plain tag token has isInline
    true exactly when the token's value is in the inline table; a Tag made
    of an interpolation token has isInline false, whatever its name, and
    buffer true. *)
Theorem isInline_is_for_plain_tags :
  forall (n : nat) (pe blk : M obj) (p p' : Parser) (o : obj),
    (parseTag n pe blk p = Ok o p' ->
     exists k r,
       _tokens (tokens p) = k :: r
       /\ get "type" o = VStr "Tag"
       /\ get "name" o = VStr (Token.val k)
       /\ get "buffer" o = VUndef
       /\ ((In (Token.val k) inlineTags /\ get "isInline" o = VBool true)
           \/ (~ In (Token.val k) inlineTags
               /\ get "isInline" o = VBool false)))
    /\ (parseInterpolation n pe blk p = Ok o p' ->
        exists k r,
          _tokens (tokens p) = k :: r
          /\ get "type" o = VStr "Tag"
          /\ get "name" o = VStr (Token.val k)
          /\ get "buffer" o = VBool true
          /\ get "isInline" o = VBool false).
Proof.
  intros n pe blk p p' o. split; intros H.
  - unfold parseTag in H. apply bind_Ok in H.
    destruct H as (k & p1 & Ha & H). apply advance_Ok in Ha.
    destruct Ha as (r & Hr & _). exists k, r. split; [exact Hr |].
    assert (Hn : forall x, ~ written_by_tag x ->
                           get x o = get x
      [("type", VStr "Tag"); ("name", VStr (Token.val k));
       ("selfClosing", Token.selfClosing k); ("block", VObj empty_block);
       ("attrs", VArr []); ("attributeBlocks", VArr []);
       ("isInline", VBool (existsb (String.eqb (Token.val k)) inlineTags))]).
    { intros x Hx. eapply tag_keeps; eassumption. }
    assert (W : forall x, ~ In x ["line"; "attrs"; "attributeBlocks";
                                  "selfClosing"; "textOnly"; "block"; "code"]
                          -> ~ written_by_tag x) by (intros x Hx; exact Hx).
    rewrite !Hn by (apply W; cbn [In]; intuition discriminate).
    split; [reflexivity |]. split; [reflexivity |]. split; [reflexivity |].
    change (get "isInline" _)
      with (VBool (existsb (String.eqb (Token.val k)) inlineTags)).
    destruct (existsb (String.eqb (Token.val k)) inlineTags) eqn:E.
    + left. split; [| reflexivity].
      apply existsb_exists in E. destruct E as (x & Hin & Hx).
      apply String.eqb_eq in Hx. subst x. exact Hin.
    + right. split; [| reflexivity].
      intros Hin. assert (E' : existsb (String.eqb (Token.val k)) inlineTags
                               = true).
      { apply existsb_exists. exists (Token.val k).
        split; [exact Hin | apply String.eqb_refl]. }
      congruence.
  - unfold parseInterpolation in H. apply bind_Ok in H.
    destruct H as (k & p1 & Ha & H). apply advance_Ok in Ha.
    destruct Ha as (r & Hr & _). exists k, r. split; [exact Hr |].
    assert (Hn : forall x, ~ written_by_tag x ->
                           get x o = get x
      [("type", VStr "Tag"); ("name", VStr (Token.val k));
       ("selfClosing", Token.selfClosing k); ("block", VObj empty_block);
       ("attrs", VArr []); ("attributeBlocks", VArr []);
       ("buffer", VBool true); ("isInline", VBool false)]).
    { intros x Hx. eapply tag_keeps; eassumption. }
    assert (W : forall x, ~ In x ["line"; "attrs"; "attributeBlocks";
                                  "selfClosing"; "textOnly"; "block"; "code"]
                          -> ~ written_by_tag x) by (intros x Hx; exact Hx).
    rewrite !Hn by (apply W; cbn [In]; intuition discriminate).
    repeat split; reflexivity.
Qed.

(** ** Further properties of the methods *)

(** [tag] writes [line], [attrs], [attributeBlocks], [selfClosing],
    [textOnly], [block] and [code], and no other property of the node it is
    given: [type], [name], [args], [call], [buffer] and [isInline] come out
    as they went in. *)
Theorem tag_writes_seven_properties :
  forall (n : nat) (pe blk : M obj) (t o : obj) (p p' : Parser) (k : string),
    tag n pe blk t p = Ok o p' ->
    ~ In k ["line"; "attrs"; "attributeBlocks"; "selfClosing"; "textOnly";
            "block"; "code"] ->
    get k o = get k t.
Proof.
  intros n pe blk t o p p' k H Hk.
  eapply tag_keeps; [exact Hk | exact H].
Qed.


Lemma expect_Ok ty p k p1 :
  expect ty p = Ok k p1 ->
  Token.type k = ty
  /\ _tokens (tokens p) = k :: _tokens (tokens p1).
Proof.
  unfold expect. intros H. apply bind_Ok in H.
  destruct H as (k0 & p0 & Hk & H). apply peek_Ok in Hk.
  destruct Hk as (-> & r & Hr).
  destruct (String.eqb_spec (Token.type k0) ty) as [E | E].
  - apply advance_Ok in H. destruct H as (r1 & H1 & H2).
    rewrite Hr in H1. inversion H1 as [[Ek Er]].
    split; [rewrite <- Ek; exact E |].
    rewrite Hr, H2, Ek, Er. reflexivity.
  - apply bind_Ok in H. destruct H as (? & ? & _ & H). discriminate.
Qed.

(** A mixin call comes out as a Mixin node in call mode with the token's
    name and arguments, and its block is never an empty Block: it is null,
    or a Block with at least one node. *)
Theorem parseCall_block_is_null_or_filled :
  forall (n : nat) (pe blk : M obj) (p p' : Parser) (o : obj),
    parseCall n pe blk p = Ok o p' ->
    exists k r,
      _tokens (tokens p) = k :: r
      /\ Token.type k = "call"
      /\ get "type" o = VStr "Mixin"
      /\ get "name" o = VStr (Token.val k)
      /\ get "args" o = Token.args k
      /\ get "call" o = VBool true
      /\ (get "block" o = VNull
          \/ exists b x l,
               get "block" o = VObj b /\ get "nodes" b = VArr (x :: l)).
Proof.
  intros n pe blk p p' o H. unfold parseCall in H.
  apply bind_Ok in H. destruct H as (k & p1 & He & H).
  apply expect_Ok in He. destruct He as (Hty & Hp).
  exists k, (_tokens (tokens p1)). split; [exact Hp |]. split; [exact Hty |].
  apply bind_Ok in H. destruct H as (m & p2 & Ht & H).
  assert (Hm : forall x, ~ written_by_tag x ->
                         get x m = get x
    [("type", VStr "Mixin"); ("name", VStr (Token.val k));
     ("args", Token.args k); ("block", VObj empty_block);
     ("call", VBool true); ("attrs", VArr []);
     ("attributeBlocks", VArr [])]).
  { intros x Hx. eapply tag_keeps; eassumption. }
  apply bind_Ok in H. destruct H as (m1 & p3 & Hc & H).
  assert (Hm1 : forall x, x <> "block" -> x <> "code" ->
                          get x m1 = get x m).
  { destruct (truthy (get "code" m)).
    - apply bind_Ok in Hc. destruct Hc as (m' & p4 & Hpush & Hc).
      inversion Hc; subst m1 p4. intros x Hb Hcd.
      rewrite get_del_other by exact Hcd.
      exact (push_block_node_keeps _ _ _ _ _ Hpush x Hb).
    - inversion Hc; subst. reflexivity. }
  apply bind_Ok in H. destruct H as (b & p4 & Hb & H).
  apply as_obj_returns in Hb.
  apply bind_Ok in H. destruct H as (nodes & p5 & Hn & H).
  apply elems_returns in Hn.
  assert (W : forall x, ~ In x ["line"; "attrs"; "attributeBlocks";
                                "selfClosing"; "textOnly"; "block"; "code"]
                        -> ~ written_by_tag x) by (intros x Hx; exact Hx).
  destruct nodes as [| x l]; cbn [length Nat.eqb] in H;
    inversion H; subst o p5; clear H.
  - rewrite !get_set_other by discriminate.
    rewrite !Hm1 by discriminate.
    rewrite !Hm by (apply W; cbn [In]; intuition discriminate).
    repeat split; try reflexivity.
    left. apply get_set_same.
  - rewrite !Hm1 by discriminate.
    rewrite !Hm by (apply W; cbn [In]; intuition discriminate).
    repeat split; try reflexivity.
    right. exists b, x, l. split; assumption.
Qed.

(** The attribute loop of [tag] only appends to [tag.attrs]. *)
Lemma push_appends k x o :
  returns (push k x o)
          (fun o' => forall l, get k o = VArr l -> get k o' = VArr (l ++ [x])).
Proof.
  unfold push. rbind elems_returns. rstep. intros l Hl.
  rewrite get_set_same. congruence.
Qed.

Lemma tag_attr_appends a st :
  returns (tag_attr a st)
          (fun st' => forall l, get "attrs" (fst st) = VArr l ->
                                exists l', get "attrs" (fst st')
                                           = VArr (l ++ l')).
Proof.
  destruct st as [t names]. unfold tag_attr. rstep.
  rbind push_appends. rstep. cbn [fst]. intros l Hl.
  eexists. apply H. exact Hl.
Qed.

Lemma tag_attributes_appends st :
  returns (tag_attributes st)
          (fun st' => forall l, get "attrs" (fst (fst st)) = VArr l ->
                                exists l', get "attrs" (fst (fst st'))
                                           = VArr (l ++ l')).
Proof.
  destruct st as [[t seen] names]. unfold tag_attributes. cbn [fst].
  rstep. rstep; [| rstep].
  - rstep. rstep. rbind push_appends. rstep. cbn [fst]. intros l Hl.
    eexists. apply H. exact Hl.
  - rstep. rstep. rstep.
    eapply returns_bind
      with (R := fun r => forall l, get "attrs" t = VArr l ->
                                    exists l', get "attrs" (fst r)
                                               = VArr (l ++ l')).
    + apply returns_for_each with (P := fun _ => True).
      * intros x st' _ Hst'.
        eapply returns_weaken; [apply tag_attr_appends |].
        cbv beta. intros st'' H l Hl.
        destruct (Hst' l Hl) as (l1 & H1).
        destruct (H _ H1) as (l2 & H2).
        exists (l1 ++ l2). rewrite H2, app_assoc. reflexivity.
      * apply Forall_forall. intros; exact I.
      * cbn [fst]. intros l Hl. exists []. rewrite app_nil_r.
        destruct (truthy _); [| exact Hl].
        rewrite get_set_other by discriminate. exact Hl.
    + intros r Hr. rstep. cbn [fst]. exact Hr.
  - rstep. rbind push_keeps. rstep. cbn [fst]. intros l Hl.
    exists []. rewrite app_nil_r. rewrite H by discriminate. exact Hl.
Qed.

Lemma attribute_loop_appends n st0 l0 :
  get "attrs" (fst (fst st0)) = VArr l0 ->
  returns (while n (k <- peek ;; ret (is_attribute_token k)) tag_attributes
             st0)
          (fun st => exists l', get "attrs" (fst (fst st)) = VArr (l0 ++ l')).
Proof.
  intros H0.
  apply returns_while
    with (Inv := fun st => exists l', get "attrs" (fst (fst st))
                                      = VArr (l0 ++ l')).
  - intros st (l1 & H1).
    eapply returns_weaken; [apply tag_attributes_appends |].
    cbv beta. intros st' H. destruct (H _ H1) as (l2 & H2).
    exists (l1 ++ l2). rewrite H2, app_assoc. reflexivity.
  - exists []. rewrite app_nil_r. exact H0.
Qed.

(** An id or class token where an expression begins stands for a div:
    parseExpr makes the Tag of an implied [div] tag token, and the token's
    own entry is the first of the Tag's attrs. *)
Theorem bare_id_or_class_is_a_div :
  forall (fuel : nat) (p p' : Parser) (k : Token.t) (r : list Token.t)
         (o : obj),
    _tokens (tokens p) = k :: r ->
    Token.type k = "id" \/ Token.type k = "class" ->
    parseExpr (S (S fuel)) p = Ok o p' ->
    get "type" o = VStr "Tag"
    /\ get "name" o = VStr "div"
    /\ exists more,
        get "attrs" o
        = VArr (VObj [("name", VStr (Token.type k));
                      ("val", VStr ("'" ++ Token.val k ++ "'"));
                      ("escaped", VBool false)] :: more).
Proof.
  intros fuel p p' k r o Hp Hk H.
  assert (Hid : String.eqb (Token.type k) "id"
                || String.eqb (Token.type k) "class" = true).
  { destruct Hk as [-> | ->]; reflexivity. }
  assert (Hno : forall s, s <> "id" -> s <> "class" ->
                          String.eqb (Token.type k) s = false).
  { intros s H1 H2. apply String.eqb_neq. destruct Hk as [-> | ->]; congruence. }
  cbn [parseExpr] in H. unfold parseExpr_body at 1 in H.
  unfold bind at 1 in H. unfold peek, TokenStream_peek in H.
  rewrite Hp in H. cbv zeta in H.
  rewrite !Hno in H by discriminate. cbn [orb] in H.
  rewrite Hid in H.
  unfold bind at 1 in H. unfold TokenStream_defer in H.
  unfold parseExpr_body in H. unfold bind at 1 in H.
  unfold peek, TokenStream_peek in H. cbn [tokens _tokens] in H.
  rewrite Hp in H. cbv zeta in H.
  cbn [Token.type] in H.
  change (String.eqb "tag" "tag") with true in H. cbv iota in H.
  unfold parseTag in H. unfold bind at 1 in H.
  unfold advance, TokenStream_advance in H. cbn [tokens _tokens] in H.
  cbn [Token.val Token.selfClosing lineno] in H.
  destruct_parser p.
  pose proof (tag_keeps _ _ _ _ _ _ _ "type"
                ltac:(unfold written_by_tag; cbn [In]; intuition discriminate)
                H) as Hty.
  pose proof (tag_keeps _ _ _ _ _ _ _ "name"
                ltac:(unfold written_by_tag; cbn [In]; intuition discriminate)
                H) as Hnm.
  split; [exact Hty |]. split; [exact Hnm |].
  apply tag_split in H. destruct H as (st & p2 & Hw & Hkeep).
  rewrite Hkeep by discriminate.
  cbn [tokens _tokens lineno] in Hw.
  destruct fuel as [| f]; [discriminate |].
  match type of Hw with
  | while _ ?c ?b ?s ?q = _ =>
      assert (Hc : c q = Ok true q)
  end.
  { rewrite attribute_loop_test. unfold is_attribute_token.
    destruct Hk as [-> | ->]; reflexivity. }
  match type of Hw with
  | while _ _ _ (?t, _, _) _ = _ =>
      pose proof (tag_attributes_token k r t false [] [] []
                    (lineno_after
                       (Token.mk "tag" "div" (Token.line k) VUndef VUndef
                          VUndef VUndef VUndef VUndef VUndef VUndef None
                          false false false false) ln)
                    filename0 inMixin0 console0) as Hstep
  end.
  assert (Hat : attribute_token k).
  { split.
    - unfold is_attribute_token. destruct Hk as [-> | ->]; reflexivity.
    - intros E. destruct Hk as [E' | E']; rewrite E' in E; discriminate. }
  specialize (Hstep Hat).
  rewrite get_set_other in Hstep by discriminate.
  rewrite get_set_other in Hstep by discriminate.
  specialize (Hstep eq_refl eq_refl).
  assert (Hcn : first_duplicate [] (checked_names k) = None).
  { unfold checked_names. destruct Hk as [-> | ->]; reflexivity. }
  rewrite Hcn in Hstep.
  destruct Hstep as (t1 & s1 & c1 & b1 & H1 & H2 & _).
  rewrite (while_step _ _ _ _ _ _ _ Hc H1) in Hw.
  assert (He : attr_entries k
               = [VObj [("name", VStr (Token.type k));
                        ("val", VStr ("'" ++ Token.val k ++ "'"));
                        ("escaped", VBool false)]]).
  { unfold attr_entries. rewrite Hid. reflexivity. }
  rewrite He in H2. cbn [app] in H2.
  destruct (attribute_loop_appends _ (t1, s1, [] ++ checked_names k) _ H2
              _ _ _ Hw) as (more & Hm).
  exists more. exact Hm.
Qed.

(** A pipeless text block without interpolation comes out as a Block with
    one Text node for each token between the start-pipeless-text token and
    the end-pipeless-text token, in order, a newline token giving a line
    feed; both delimiters are consumed. *)
Theorem pipeless_text_block :
  forall (n : nat) (pe : M obj) (p : Parser)
         (s e : Token.t) (run rest : list Token.t),
    _tokens (tokens p) = s :: run ++ e :: rest ->
    Token.type s = "start-pipeless-text" ->
    Forall plain_text_token run ->
    Token.type e = "end-pipeless-text" ->
    length run < n ->
    exists p',
      parseTextBlock n pe p
      = Ok (Some [("type", VStr "Block");
                  ("nodes", VArr (map pipeless_text run))]) p'
      /\ _tokens (tokens p') = rest.
Proof.
  intros n pe p s e run rest Hp Hs Hrun He Hn.
  destruct_parser p.
  unfold parseTextBlock. unfold bind at 1. rewrite peek_is_cons, Hs.
  change (String.eqb "start-pipeless-text" "start-pipeless-text") with true.
  cbn [negb]. unfold bind at 1. rewrite advance_cons.
  match goal with
  | |- context [while n ?c ?b []] =>
      assert (L : forall run m acc l,
                 Forall plain_text_token run -> length run < m ->
                 exists l',
                   while m c b acc
                     (mkParser (mkTokenStream (run ++ e :: rest) l)
                               filename0 inMixin0 console0)
                   = Ok (acc ++ map pipeless_text run)
                        (mkParser (mkTokenStream (e :: rest) l')
                                  filename0 inMixin0 console0))
  end.
  { clear Hrun Hn run. induction run as [| k run IH];
      intros m acc l Hrun Hm.
    - destruct m as [| m]; [inversion Hm |]. exists l.
      rewrite while_S. unfold bind at 1. cbn [app]. unfold bind at 1.
      rewrite peek_is_cons, He.
      change (String.eqb "end-pipeless-text" "end-pipeless-text") with true.
      cbn [negb map ret]. rewrite app_nil_r. reflexivity.
    - destruct m as [| m]; [inversion Hm |]. cbn [length] in Hm.
      inversion Hrun as [| ? ? Hk Hrun']; subst.
      destruct (IH m (acc ++ [pipeless_text k]) (lineno_after k l) Hrun'
                  ltac:(lia)) as (l' & IH').
      exists l'. rewrite while_S. unfold bind at 1. cbn [app].
      unfold bind at 1. rewrite peek_is_cons.
      assert (Hne : String.eqb (Token.type k) "end-pipeless-text" = false).
      { destruct Hk as [-> | ->]; reflexivity. }
      rewrite Hne. cbn [negb ret]. unfold bind at 1. unfold bind at 1.
      rewrite advance_cons. cbn [map].
      replace (acc ++ pipeless_text k :: map pipeless_text run)
        with ((acc ++ [pipeless_text k]) ++ map pipeless_text run)
        by (rewrite <- app_assoc; reflexivity).
      rewrite <- IH'. unfold pipeless_text, text_node.
      destruct Hk as [Hk | Hk]; rewrite Hk; reflexivity. }
  destruct (L run n [] (lineno_after s ln) Hrun Hn) as (l' & L').
  unfold bind at 1. rewrite L'. cbn [app]. unfold bind at 1.
  rewrite advance_cons.
  eexists. split; reflexivity.
Qed.

End Parser.

(** ** The properties at concrete inputs *)

(** C6, as stated, fails: on the tokens [a; b], [lookahead(1)] is [b] and
    [peek()] is [a]. *)
Lemma lookahead_one_is_not_peek :
  ~ (forall p : Parser, lookahead 1 p = peek p).
Proof.
  intros H.
  specialize (H (parser_on [Token.simple "newline" "" 1; code_else])).
  discriminate H.
Qed.

Lemma lookahead_counts_from_zero_witness :
  _tokens (tokens (parser_on [Token.simple "newline" "" 1; code_else]))
  = [Token.simple "newline" "" 1; code_else]
  /\ lookahead 1 (parser_on [Token.simple "newline" "" 1; code_else])
     = Ok code_else (parser_on [Token.simple "newline" "" 1; code_else]).
Proof.
  split; [reflexivity |].
  exact (proj2 (proj2 (lookahead_counts_from_zero
                  (parser_on [Token.simple "newline" "" 1; code_else]))
               (Token.simple "newline" "" 1) code_else [] eq_refl)).
Defined.

Lemma parseCode_else_without_if_witness :
  _tokens (tokens (parser_on [code_else; eos])) = [code_else; eos]
  /\ Token.type code_else = "code"
  /\ Token.isElse code_else = true
  /\ Token.hasIf code_else = false
  /\ parseCode no_lineno (block inline_tags no_lineno 3)
       (parser_on [code_else; eos])
     = Throw else_without_if.
Proof.
  do 4 (split; [reflexivity |]).
  exact (proj1 (parseCode_else_without_if inline_tags VUndef no_lineno
                  (block inline_tags no_lineno 3)
                  (parser_on [code_else; eos]) code_else [eos]
                  eq_refl eq_refl) eq_refl eq_refl).
Defined.

Lemma parseCode_links_else_witness :
  parseCode no_lineno (block inline_tags no_lineno 3)
    (parser_on [code_if; code_else; eos])
  = Ok [("type", VStr "Code"); ("val", VStr "if x"); ("buffer", VUndef);
        ("escape", VUndef); ("line", VUndef)]
       (parser_on [Token.mark_hasIf code_else; eos])
  /\ exists q,
      _tokens (tokens (parser_on [Token.mark_hasIf code_else; eos]))
      = link_else (_tokens (tokens q)).
Proof.
  split; [reflexivity |].
  destruct (proj1 (parseCode_links_else inline_tags VUndef no_lineno
                     (block inline_tags no_lineno 3)
                     (parser_on [code_if; code_else; eos])
                     (parser_on [Token.mark_hasIf code_else; eos])
                     [("type", VStr "Code"); ("val", VStr "if x");
                      ("buffer", VUndef); ("escape", VUndef);
                      ("line", VUndef)]
                     code_if [code_else; eos] eq_refl eq_refl eq_refl))
    as (q & Hq & _).
  exists q. exact Hq.
Defined.

Lemma mixin_block_needs_inMixin_witness :
  _tokens (tokens (parser_on [Token.simple "mixin-block" "" 1; eos]))
  = [Token.simple "mixin-block" "" 1; eos]
  /\ Token.type (Token.simple "mixin-block" "" 1) = "mixin-block"
  /\ inMixin (parser_on [Token.simple "mixin-block" "" 1; eos]) = false
  /\ parseMixinBlock no_lineno
       (parser_on [Token.simple "mixin-block" "" 1; eos])
     = Throw anonymous_block.
Proof.
  do 3 (split; [reflexivity |]).
  exact (proj1 (mixin_block_needs_inMixin inline_tags VUndef no_lineno
                  (parser_on [Token.simple "mixin-block" "" 1; eos])
                  (Token.simple "mixin-block" "" 1) [eos]
                  eq_refl eq_refl) eq_refl).
Defined.

Lemma inMixin_is_cleared_witness :
  parseMixin no_lineno (block inline_tags no_lineno 5)
    (parser_on mixin_with_block)
  = Ok [("type", VStr "Mixin"); ("name", VStr "m"); ("args", VUndef);
        ("block",
         VObj [("type", VStr "Block");
               ("nodes",
                VArr [VObj [("type", VStr "MixinBlock");
                            ("filename", VStr "f.pug")]]);
               ("line", VUndef); ("filename", VStr "f.pug")]);
        ("call", VBool false)]
       (parser_on [eos])
  /\ inMixin (parser_on [eos]) = false.
Proof.
  split; [reflexivity |].
  destruct (proj1 (inMixin_is_cleared inline_tags VUndef no_lineno
                     (block inline_tags no_lineno 5)
                     (parser_on mixin_with_block) (parser_on [eos])
                     [("type", VStr "Mixin"); ("name", VStr "m");
                      ("args", VUndef);
                      ("block",
                       VObj [("type", VStr "Block");
                             ("nodes",
                              VArr [VObj [("type", VStr "MixinBlock");
                                          ("filename", VStr "f.pug")]]);
                             ("line", VUndef); ("filename", VStr "f.pug")]);
                      ("call", VBool false)]
                     (Token.simple "mixin" "m" 1) (Token.simple "indent" "" 2)
                     _ eq_refl eq_refl eq_refl eq_refl))
    as (q & b & q' & _ & _ & _ & H & _).
  exact H.
Defined.

Lemma div_two_ids_run :
  Forall attribute_token
    [Token.simple "id" "x" 1;
     Token.with_attrs [attr_id "y"] (Token.simple "attrs" "" 1)].
Proof.
  repeat constructor; try discriminate.
Qed.

Lemma duplicate_attribute_is_rejected_witness :
  first_duplicate []
    (attribute_names
       [Token.simple "id" "x" 1;
        Token.with_attrs [attr_id "y"] (Token.simple "attrs" "" 1)])
  = Some "id"
  /\ parseTag inline_tags no_lineno 3
       (parseExpr inline_tags no_lineno 3) (block inline_tags no_lineno 3)
       (parser_on div_two_ids)
     = Throw (duplicate_error "id").
Proof.
  split; [reflexivity |].
  exact (proj1 (duplicate_attribute_is_rejected inline_tags VUndef no_lineno
                  3 (parseExpr inline_tags no_lineno 3)
                  (block inline_tags no_lineno 3)
                  (parser_on div_two_ids)
                  (Token.simple "tag" "div" 1)
                  [Token.simple "id" "x" 1;
                   Token.with_attrs [attr_id "y"]
                     (Token.simple "attrs" "" 1)]
                  [eos] "id" eq_refl div_two_ids_run
                  ltac:(simpl; lia)) eq_refl).
Defined.

Lemma two_html_lines_run :
  Forall (fun k => Token.type k = "text-html")
    [Token.simple "text-html" "a" 1; Token.simple "text-html" "b" 2].
Proof. repeat constructor. Qed.

Lemma two_html_lines_end :
  html_run_ends [Token.simple "newline" "" 3; eos].
Proof.
  simpl. repeat split; try discriminate.
Qed.

Lemma text_html_tokens_are_merged_witness :
  exists p',
    parseTextHtml no_lineno 3 (block inline_tags no_lineno 3)
      (parser_on two_html_lines)
    = Ok [html_text ("a" ++ nl ++ "b") (VStr "f.pug") (VNum 1)] p'
    /\ _tokens (tokens p') = [eos].
Proof.
  exact (proj1 (text_html_tokens_are_merged inline_tags VUndef no_lineno
                  3 (block inline_tags no_lineno 3)
                  (parser_on two_html_lines)
                  (Token.simple "text-html" "a" 1)
                  [Token.simple "text-html" "b" 2]
                  [Token.simple "newline" "" 3; eos]
                  eq_refl two_html_lines_run two_html_lines_end
                  ltac:(simpl; lia))).
Defined.

(** C1, as stated, fails at its own input: without a closing eos the
    attribute loop of [tag] reads past the last token. *)
Lemma tag_sequence_without_eos :
  parse inline_tags VUndef no_lineno
    [Token.simple "tag" "div" 1;
     Token.with_attrs [class_a] (Token.simple "attrs" "" 1);
     Token.with_attrs [class_b] (Token.simple "attrs" "" 1)]
    (VStr "f.pug")
  = Throws past_the_end.
Proof. reflexivity. Qed.

(** C2, as stated, fails at its own input: behind the else token parseCode
    looks for an indent and reads past the last token. *)
Lemma if_else_without_eos :
  parse inline_tags VUndef no_lineno
    [code_if; Token.simple "indent" "" 2; Token.simple "code" "y" 2;
     Token.simple "outdent" "" 3; code_else]
    (VStr "f.pug")
  = Throws past_the_end.
Proof. reflexivity. Qed.

(** C8, as stated, fails at its own input: once the newline is consumed the
    loop of parseTextHtml reads past the last token. *)
Lemma html_lines_without_eos :
  parse inline_tags VUndef no_lineno
    [Token.simple "text-html" "a" 1; Token.simple "text-html" "b" 2;
     Token.simple "newline" "" 3]
    (VStr "f.pug")
  = Throws past_the_end.
Proof. reflexivity. Qed.



(** C9, as stated, fails for interpolation tokens: the name [a] is in the
    inline table and the Tag's isInline is false. *)
Lemma interpolated_tag_is_not_inline :
  In "a" inline_tags
  /\ parse inline_tags VUndef no_lineno
       [Token.simple "interpolation" "a" 1; eos] (VStr "f.pug")
     = Returns interpolated_a_tree.
Proof.
  split; [left; reflexivity | reflexivity].
Qed.

Lemma isInline_is_for_plain_tags_witness :
  parseTag inline_tags no_lineno 3
    (parseExpr inline_tags no_lineno 3) (block inline_tags no_lineno 3)
    (parser_on [Token.simple "tag" "span" 1; eos])
  = Ok [("type", VStr "Tag"); ("name", VStr "span");
        ("selfClosing", VUndef);
        ("block", VObj [("type", VStr "Block"); ("nodes", VArr [])]);
        ("attrs", VArr []); ("attributeBlocks", VArr []);
        ("isInline", VBool true); ("line", VUndef)]
       (parser_on [eos])
  /\ exists k r,
      _tokens (tokens (parser_on [Token.simple "tag" "span" 1; eos]))
      = k :: r
      /\ In (Token.val k) inline_tags.
Proof.
  split; [reflexivity |].
  destruct (proj1 (isInline_is_for_plain_tags inline_tags no_lineno 3
                     (parseExpr inline_tags no_lineno 3)
                     (block inline_tags no_lineno 3)
                     (parser_on [Token.simple "tag" "span" 1; eos])
                     (parser_on [eos])
                     [("type", VStr "Tag"); ("name", VStr "span");
                      ("selfClosing", VUndef);
                      ("block",
                       VObj [("type", VStr "Block"); ("nodes", VArr [])]);
                      ("attrs", VArr []); ("attributeBlocks", VArr []);
                      ("isInline", VBool true); ("line", VUndef)])
                  eq_refl)
    as (k & r & Hr & _ & _ & _ & [[Hin _] | [_ Hf]]).
  - exists k, r. split; assumption.
  - discriminate Hf.
Defined.

Lemma parse_returns_plain_data_witness :
  parse inline_tags VUndef no_lineno two_texts (VStr "f.pug")
  = Returns two_texts_tree
  /\ json_data two_texts_tree = true
  /\ json_clone two_texts_tree = two_texts_tree.
Proof.
  split; [reflexivity |].
  exact (proj2 (parse_returns_plain_data inline_tags VUndef no_lineno
                  two_texts "f.pug" two_texts_tree eq_refl)).
Defined.

Lemma parseExpr_and_block_consume_witness :
  2 * size (parser_on two_texts) + 2 <= 8
  /\ parseExpr inline_tags no_lineno 8 (parser_on two_texts) <> OutOfFuel.
Proof.
  split; [vm_compute; lia |].
  exact (proj1 (parseExpr_and_block_consume inline_tags no_lineno 8
                  (parser_on two_texts) ltac:(vm_compute; lia))).
Defined.

(** [tag] on a span node, with a class token ahead: the node's name is
    left as it was. *)
Lemma tag_writes_seven_properties_witness :
  tag no_lineno 3
    (parseExpr inline_tags no_lineno 5) (block inline_tags no_lineno 5)
    [("type", VStr "Tag"); ("name", VStr "span"); ("attrs", VArr []);
     ("attributeBlocks", VArr []); ("block", VObj empty_block)]
    (parser_on [Token.simple "class" "c" 1; eos])
  = Ok [("type", VStr "Tag"); ("name", VStr "span");
        ("attrs",
         VArr [VObj [("name", VStr "class"); ("val", VStr "'c'");
                     ("escaped", VBool false)]]);
        ("attributeBlocks", VArr []); ("block", VObj empty_block);
        ("line", VUndef)]
       (parser_on [eos])
  /\ get "name"
       [("type", VStr "Tag"); ("name", VStr "span");
        ("attrs",
         VArr [VObj [("name", VStr "class"); ("val", VStr "'c'");
                     ("escaped", VBool false)]]);
        ("attributeBlocks", VArr []); ("block", VObj empty_block);
        ("line", VUndef)]
     = get "name"
         [("type", VStr "Tag"); ("name", VStr "span"); ("attrs", VArr []);
          ("attributeBlocks", VArr []); ("block", VObj empty_block)].
Proof.
  split; [reflexivity |].
  apply (tag_writes_seven_properties no_lineno 3
           (parseExpr inline_tags no_lineno 5)
           (block inline_tags no_lineno 5)
           [("type", VStr "Tag"); ("name", VStr "span"); ("attrs", VArr []);
            ("attributeBlocks", VArr []); ("block", VObj empty_block)]
           _
           (parser_on [Token.simple "class" "c" 1; eos])
           (parser_on [eos]) "name").
  - reflexivity.
  - cbn [In]. intros H.
    repeat (destruct H as [H | H]; [discriminate H |]). exact H.
Defined.


(** A mixin call with nothing behind it: the block of the node is null. *)
Lemma parseCall_block_is_null_or_filled_witness :
  parseCall no_lineno 3
    (parseExpr inline_tags no_lineno 5) (block inline_tags no_lineno 5)
    (parser_on [Token.simple "call" "m" 1; eos])
  = Ok [("type", VStr "Mixin"); ("name", VStr "m"); ("args", VUndef);
        ("block", VNull); ("call", VBool true); ("attrs", VArr []);
        ("attributeBlocks", VArr []); ("line", VUndef)]
       (parser_on [eos])
  /\ exists k r,
      _tokens (tokens (parser_on [Token.simple "call" "m" 1; eos])) = k :: r
      /\ Token.type k = "call".
Proof.
  split; [reflexivity |].
  destruct (parseCall_block_is_null_or_filled no_lineno 3
              (parseExpr inline_tags no_lineno 5)
              (block inline_tags no_lineno 5)
              (parser_on [Token.simple "call" "m" 1; eos])
              (parser_on [eos])
              [("type", VStr "Mixin"); ("name", VStr "m"); ("args", VUndef);
               ("block", VNull); ("call", VBool true); ("attrs", VArr []);
               ("attributeBlocks", VArr []); ("line", VUndef)]
              eq_refl)
    as (k & r & Hr & Hk & _).
  exists k, r. split; assumption.
Defined.

(** A class token where an expression begins. *)
Lemma bare_id_or_class_is_a_div_witness :
  parseExpr inline_tags no_lineno 4
    (parser_on [Token.simple "class" "c" 1; eos])
  = Ok [("type", VStr "Tag"); ("name", VStr "div"); ("selfClosing", VUndef);
        ("block", VObj empty_block);
        ("attrs",
         VArr [VObj [("name", VStr "class"); ("val", VStr "'c'");
                     ("escaped", VBool false)]]);
        ("attributeBlocks", VArr []); ("isInline", VBool false);
        ("line", VUndef)]
       (parser_on [eos])
  /\ get "name"
       [("type", VStr "Tag"); ("name", VStr "div"); ("selfClosing", VUndef);
        ("block", VObj empty_block);
        ("attrs",
         VArr [VObj [("name", VStr "class"); ("val", VStr "'c'");
                     ("escaped", VBool false)]]);
        ("attributeBlocks", VArr []); ("isInline", VBool false);
        ("line", VUndef)]
     = VStr "div".
Proof.
  split; [reflexivity |].
  exact (proj1 (proj2 (bare_id_or_class_is_a_div inline_tags no_lineno 2
                         (parser_on [Token.simple "class" "c" 1; eos])
                         (parser_on [eos])
                         (Token.simple "class" "c" 1) [eos] _
                         eq_refl (or_intror eq_refl) eq_refl))).
Defined.

(** A pipeless text block of one text token and one newline token. *)
Lemma pipeless_text_block_witness :
  Forall plain_text_token
    [Token.simple "text" "a" 1; Token.simple "newline" "" 2]
  /\ exists p',
      parseTextBlock no_lineno 3 (parseExpr inline_tags no_lineno 5)
        (parser_on [Token.simple "start-pipeless-text" "" 1;
                    Token.simple "text" "a" 1; Token.simple "newline" "" 2;
                    Token.simple "end-pipeless-text" "" 2; eos])
      = Ok (Some [("type", VStr "Block");
                  ("nodes",
                   VArr (map pipeless_text
                           [Token.simple "text" "a" 1;
                            Token.simple "newline" "" 2]))]) p'
      /\ _tokens (tokens p') = [eos].
Proof.
  assert (H : Forall plain_text_token
                [Token.simple "text" "a" 1; Token.simple "newline" "" 2]).
  { apply Forall_cons; [left; reflexivity |].
    apply Forall_cons; [right; reflexivity | apply Forall_nil]. }
  split; [exact H |].
  exact (pipeless_text_block no_lineno 3 (parseExpr inline_tags no_lineno 5)
           (parser_on [Token.simple "start-pipeless-text" "" 1;
                       Token.simple "text" "a" 1; Token.simple "newline" "" 2;
                       Token.simple "end-pipeless-text" "" 2; eos])
           (Token.simple "start-pipeless-text" "" 1)
           (Token.simple "end-pipeless-text" "" 2)
           [Token.simple "text" "a" 1; Token.simple "newline" "" 2] [eos]
           eq_refl eq_refl H eq_refl (le_n 3)).
Defined.

